(** * Coal / hpp-fcl: query results and convex polytopes

    A shallow embedding of
      - include/hpp/fcl/collision_data.h  (Contact, QueryRequest, QueryResult,
        CollisionResult, DistanceResult), and
      - include/hpp/fcl/shape/details/convex.hxx  (Convex<PolygonT>:
        fillNeighbors, computeVolume, computeCOM),
    followed by the properties of these operations.

    FCL_REAL is C++ double; it is modelled by the binary64 floats of the
    kernel, so comparisons (NaN, signed zeros, the largest finite value) and
    the arithmetic of the mass properties are the IEEE-754 ones. *)

From Stdlib Require Import List Sorted Permutation Bool Arith ZArith NArith Lia
  Floats.
Import ListNotations.

Set Implicit Arguments.

(* ================================================================== *)
(** * Part I: the data model and the operations                       *)
(* ================================================================== *)

(** ** Scalars and vectors *)

Module Real.

(** Modelled from the spec: data_types.h, which declares [FCL_REAL], is
    not among the sources; the floating-point fields of the spec are C++
    doubles ([typedef double FCL_REAL]). *)
Definition FCL_REAL := float.

(** [(std::numeric_limits<FCL_REAL>::max)()]: the largest finite double,
    (2 - 2^-52) * 2^1023. *)
Definition numeric_limits_max : FCL_REAL := 0x1.fffffffffffffp+1023%float.

(** [std::numeric_limits<FCL_REAL>::quiet_NaN()]. *)
Definition quiet_NaN : FCL_REAL := nan.

(** [a < b], [a > b] and [a == b] on doubles. *)
Definition lt (a b : FCL_REAL) : bool := (a <? b)%float.
Definition gt (a b : FCL_REAL) : bool := (b <? a)%float.
Definition eq (a b : FCL_REAL) : bool := (a =? b)%float.

(** [a <= b] on doubles and [std::sqrt]. *)
Definition le (a b : FCL_REAL) : bool := (a <=? b)%float.
Definition sqrt (a : FCL_REAL) : FCL_REAL := PrimFloat.sqrt a.

(** The lexicographic comparison of (exponent, mantissa). *)
Definition lex_compare (e1 : Z) (m1 : positive) (e2 : Z) (m2 : positive) :=
  match Z.compare e1 e2 with
  | Eq => Pos.compare m1 m2
  | c => c
  end.

End Real.

Module Vec3f.
Import Real.

(** Modelled from the spec: [Vec3f] (data_types.h, not among the sources)
    is the 3D point or vector of the spec, [Eigen::Matrix<FCL_REAL, 3, 1>]:
    three doubles, with Eigen's coefficient-wise operations. *)
Record t := make { x : FCL_REAL; y : FCL_REAL; z : FCL_REAL }.

(** [Vec3f::Constant(c)] and [Vec3f::Zero()]. *)
Definition Constant (c : FCL_REAL) : t := make c c c.
Definition Zero : t := Constant 0%float.

(** Eigen's [a == b]: every coefficient compares equal ([==] on doubles). *)
Definition eqb (a b : t) : bool :=
  Real.eq (x a) (x b) && Real.eq (y a) (y b) && Real.eq (z a) (z b).

Definition add (a b : t) : t :=
  make (x a + x b)%float (y a + y b)%float (z a + z b)%float.

(** [v * s] and [v / s] for a scalar [s]. *)
Definition scale (a : t) (s : FCL_REAL) : t :=
  make (x a * s)%float (y a * s)%float (z a * s)%float.
Definition div (a : t) (s : FCL_REAL) : t :=
  make (x a / s)%float (y a / s)%float (z a / s)%float.

(** [a.cross(b)] and [a.dot(b)], coefficients in Eigen's order. *)
Definition cross (a b : t) : t :=
  make (y a * z b - z a * y b)%float
       (z a * x b - x a * z b)%float
       (x a * y b - y a * x b)%float.
Definition dot (a b : t) : FCL_REAL :=
  (x a * x b + y a * y b + z a * z b)%float.

End Vec3f.

(** ** collision_data.h *)

(** [const CollisionGeometry*], the identity of a geometry: an address,
    [NULL] being 0. *)
Definition CollisionGeometry_ptr := N.
Definition NULL : CollisionGeometry_ptr := 0%N.

(** Modelled from the spec: [support_func_guess_t] (data_types.h, not
    among the sources) is the support-index hint of the warm start, a pair of
    ints ([Eigen::Vector2i]). *)
Definition support_func_guess_t := (Z * Z)%type.

(** [a == b] on [support_func_guess_t]: both coefficients are equal. *)
Definition support_func_guess_eqb (a b : support_func_guess_t) : bool :=
  (fst a =? fst b)%Z && (snd a =? snd b)%Z.

(** Modelled from the spec: [GJKInitialGuess] (data_types.h, not among the
    sources) is the caching mode of a request.  collision_data.h names the
    enumerators [DefaultGuess] and [CachedGuess]; [BoundingVolumeGuess]
    stands for any other mode. *)
Inductive GJKInitialGuess := DefaultGuess | CachedGuess | BoundingVolumeGuess.

Definition GJKInitialGuess_eqb (a b : GJKInitialGuess) : bool :=
  match a, b with
  | DefaultGuess, DefaultGuess
  | CachedGuess, CachedGuess
  | BoundingVolumeGuess, BoundingVolumeGuess => true
  | _, _ => false
  end.

Module CPUTimes.
Import Real.

(** Modelled from the spec: timings.h is not among the sources.  The spec
    only says that [clear()] resets the timing to its construction-time
    default; [CPUTimes] is taken to be the three clocks (wall, user,
    system), zero at construction, and [clear()] to zero them again. *)
Record t := make { wall : FCL_REAL; user : FCL_REAL; system : FCL_REAL }.

(** Modelled from the spec: [CPUTimes()], the construction-time default. *)
Definition default : t := make 0%float 0%float 0%float.

(** Modelled from the spec: [void clear()], which resets the timing. *)
Definition clear (_ : t) : t := make 0%float 0%float 0%float.

End CPUTimes.

Module Contact.
Import Real.

Record t := make {
  o1 : CollisionGeometry_ptr;
  o2 : CollisionGeometry_ptr;
  b1 : Z;
  b2 : Z;
  normal : Vec3f.t;
  nearest_points : Vec3f.t * Vec3f.t;
  pos : Vec3f.t;
  penetration_depth : FCL_REAL
}.

Definition NONE : Z := (-1)%Z.

(** [bool operator<(const Contact& other) const] *)
Definition ltb (c other : t) : bool :=
  if (b1 c =? b1 other)%Z then (b2 c <? b2 other)%Z
  else (b1 c <? b1 other)%Z.

(** [bool operator==(const Contact& other) const] *)
Definition eqb (c other : t) : bool :=
  (o1 c =? o1 other)%N && (o2 c =? o2 other)%N && (b1 c =? b1 other)%Z &&
  (b2 c =? b2 other)%Z && Vec3f.eqb (normal c) (normal other) &&
  Vec3f.eqb (pos c) (pos other) &&
  Real.eq (penetration_depth c) (penetration_depth other).

(** [bool operator!=(const Contact& other) const] *)
Definition neqb (c other : t) : bool := negb (eqb c other).

End Contact.

Module QueryResult.

(** The base class of all query results. *)
Record t := make {
  cached_gjk_guess : Vec3f.t;
  cached_support_func_guess : support_func_guess_t;
  timings : CPUTimes.t
}.

(** [QueryResult()] *)
Definition default : t :=
  make Vec3f.Zero ((-1)%Z, (-1)%Z) CPUTimes.default.

End QueryResult.

(** Modelled from the spec: the solver options that a request stores
    (data_types.h, not among the sources); collision_data.h names the
    enumerators [DefaultGJK], [VDB] and [Relative]. *)
Inductive GJKVariant := DefaultGJK | NesterovAcceleration.
Inductive GJKConvergenceCriterion := VDB | DualityGap | Hybrid.
Inductive GJKConvergenceCriterionType := Relative | Absolute.

Module QueryRequest.
Import Real.

(** The base class of all query requests. *)
Record t := make {
  gjk_initial_guess : GJKInitialGuess;
  enable_cached_gjk_guess : bool;
  gjk_variant : GJKVariant;
  gjk_convergence_criterion : GJKConvergenceCriterion;
  gjk_convergence_criterion_type : GJKConvergenceCriterionType;
  gjk_tolerance : FCL_REAL;
  gjk_max_iterations : N;
  cached_gjk_guess : Vec3f.t;
  cached_support_func_guess : support_func_guess_t;
  enable_timings : bool;
  collision_distance_threshold : FCL_REAL
}.

(** [QueryRequest()]: the tolerance is 1e-6 and the threshold
    [Eigen::NumTraits<double>::dummy_precision()] = 1e-12, both as the
    nearest doubles. *)
Definition default : t :=
  make DefaultGuess false DefaultGJK VDB Relative
       0x1.0c6f7a0b5ed8dp-20%float 128%N
       (Vec3f.make 1%float 0%float 0%float) (0%Z, 0%Z)
       false 0x1.19799812dea11p-40%float.

(** [cached_gjk_guess = g; cached_support_func_guess = s;] *)
Definition assign_guess (req : t) (g : Vec3f.t) (s : support_func_guess_t) : t :=
  make (gjk_initial_guess req) (enable_cached_gjk_guess req)
       (gjk_variant req) (gjk_convergence_criterion req)
       (gjk_convergence_criterion_type req)
       (gjk_tolerance req) (gjk_max_iterations req)
       g s
       (enable_timings req) (collision_distance_threshold req).

(** [void QueryRequest::updateGuess(const QueryResult& result)]: two
    successive [if]s, the second one on the deprecated flag. *)
Definition updateGuess (req : t) (result : QueryResult.t) : t :=
  let req1 :=
    if GJKInitialGuess_eqb (gjk_initial_guess req) CachedGuess then
      assign_guess req (QueryResult.cached_gjk_guess result)
                   (QueryResult.cached_support_func_guess result)
    else req in
  if enable_cached_gjk_guess req1 then
    assign_guess req1 (QueryResult.cached_gjk_guess result)
                 (QueryResult.cached_support_func_guess result)
  else req1.

(** [bool operator==(const QueryRequest& other) const]: five of the
    fields. *)
Definition eqb (req other : t) : bool :=
  GJKInitialGuess_eqb (gjk_initial_guess req) (gjk_initial_guess other) &&
  Bool.eqb (enable_cached_gjk_guess req) (enable_cached_gjk_guess other) &&
  Vec3f.eqb (cached_gjk_guess req) (cached_gjk_guess other) &&
  support_func_guess_eqb (cached_support_func_guess req)
                         (cached_support_func_guess other) &&
  Bool.eqb (enable_timings req) (enable_timings other).

End QueryRequest.

Module CollisionRequest.
Import Real.




(** [struct CollisionRequest : QueryRequest]; the inherited part is the
    field [base]. *)
Record t := make {
  base : QueryRequest.t;
  num_max_contacts : N;
  enable_contact : bool;
  enable_distance_lower_bound : bool;
  security_margin : FCL_REAL;
  break_distance : FCL_REAL;
  distance_upper_bound : FCL_REAL
}.


(** [CollisionRequest()] *)
Definition default : t :=
  make QueryRequest.default 1%N false false
       0%float 0x1.0624dd2f1a9fcp-10%float numeric_limits_max.

(** [bool operator==(const CollisionRequest& other) const] *)
Definition eqb (req other : t) : bool :=
  QueryRequest.eqb (base req) (base other) &&
  (num_max_contacts req =? num_max_contacts other)%N &&
  Bool.eqb (enable_contact req) (enable_contact other) &&
  Bool.eqb (enable_distance_lower_bound req) (enable_distance_lower_bound other) &&
  Real.eq (security_margin req) (security_margin other) &&
  Real.eq (break_distance req) (break_distance other) &&
  Real.eq (distance_upper_bound req) (distance_upper_bound other).

End CollisionRequest.

(** What a call produces: a value, one of the two exceptions thrown in the
    sources ([std::invalid_argument]; [std::logic_error], which is what
    [HPP_FCL_THROW_PRETTY(..., std::logic_error)] throws), or an access
    outside a buffer, which is undefined behaviour in C++. *)
Inductive except (A : Type) :=
| Return (a : A)
| Throw_invalid_argument
| Throw_logic_error
| Undefined_behaviour.
Arguments Return {A} a.
Arguments Throw_invalid_argument {A}.
Arguments Throw_logic_error {A}.
Arguments Undefined_behaviour {A}.

Module CollisionResult.
Import Real.

(** [struct CollisionResult : QueryResult]; the inherited part is the
    field [base]. *)
Record t := make {
  base : QueryResult.t;
  contacts : list Contact.t;
  distance_lower_bound : FCL_REAL;
  nearest_points : Vec3f.t * Vec3f.t
}.

(** [CollisionResult()]; [nearest_points] is left uninitialised by the
    constructor, so its initial content is an argument. *)
Definition default (uninit : Vec3f.t * Vec3f.t) : t :=
  make QueryResult.default [] numeric_limits_max uninit.

(** [void updateDistanceLowerBound(const FCL_REAL& distance_lower_bound_)] *)
Definition updateDistanceLowerBound (r : t) (distance_lower_bound_ : FCL_REAL) : t :=
  if Real.lt distance_lower_bound_ (distance_lower_bound r) then
    make (base r) (contacts r) distance_lower_bound_ (nearest_points r)
  else r.

(** [void addContact(const Contact& c)] *)
Definition addContact (r : t) (c : Contact.t) : t :=
  make (base r) (contacts r ++ [c]) (distance_lower_bound r) (nearest_points r).

(** [bool isCollision() const] and [size_t numContacts() const] *)
Definition isCollision (r : t) : bool := (0 <? length (contacts r))%nat.
Definition numContacts (r : t) : nat := length (contacts r).

(** [const Contact& getContact(size_t i) const] *)
Definition getContact (r : t) (i : nat) : except Contact.t :=
  match contacts r with
  | [] => Throw_invalid_argument
  | c0 :: _ =>
      if (i <? length (contacts r))%nat then Return (nth i (contacts r) c0)
      else Return (last (contacts r) c0)
  end.

(** [void clear()] *)
Definition clear (r : t) : t :=
  make (QueryResult.make (QueryResult.cached_gjk_guess (base r))
                         (QueryResult.cached_support_func_guess (base r))
                         (CPUTimes.clear (QueryResult.timings (base r))))
       [] numeric_limits_max (nearest_points r).

(** [void setContact(size_t i, const Contact& c)] *)
Definition setContact (r : t) (i : nat) (c : Contact.t) : except t :=
  match contacts r with
  | [] => Throw_invalid_argument
  | _ :: _ =>
      let n := length (contacts r) in
      let at_ := if (i <? n)%nat then i else n - 1 in
      Return (make (base r)
                   (firstn at_ (contacts r) ++ c :: skipn (S at_) (contacts r))
                   (distance_lower_bound r) (nearest_points r))
  end.

(** [const std::vector<Contact>& getContacts() const] *)
Definition getContacts (r : t) : list Contact.t := contacts r.

(** [a == b] on [std::vector<Contact>]: the same size and equal elements. *)
Fixpoint contacts_eqb (a b : list Contact.t) : bool :=
  match a, b with
  | [], [] => true
  | x :: a', y :: b' => Contact.eqb x y && contacts_eqb a' b'
  | _, _ => false
  end.

(** [bool operator==(const CollisionResult& other) const] *)
Definition eqb (r other : t) : bool :=
  contacts_eqb (contacts r) (contacts other) &&
  Real.eq (distance_lower_bound r) (distance_lower_bound other).

End CollisionResult.

Module DistanceResult.
Import Real.

(** [struct DistanceResult : QueryResult]; the inherited part is the field
    [base].  [derivatives] stands for the fields that neither [update] nor
    [clear] touches ([dw_dq], [dw1_dq], [dw2_dq], [optimal_simplex]). *)
Record t (D : Type) := make {
  base : QueryResult.t;
  min_distance : FCL_REAL;
  nearest_points : Vec3f.t * Vec3f.t;
  derivatives : D;
  normal : Vec3f.t;
  o1 : CollisionGeometry_ptr;
  o2 : CollisionGeometry_ptr;
  b1 : Z;
  b2 : Z
}.

Definition NONE : Z := (-1)%Z.

Definition nan3 : Vec3f.t := Vec3f.Constant quiet_NaN.

(** [DistanceResult(FCL_REAL min_distance_ = numeric_limits<FCL_REAL>::max())];
    the derivative fields are left uninitialised. *)
Definition construct {D} (uninit : D) (min_distance_ : FCL_REAL) : t D :=
  make QueryResult.default min_distance_ (nan3, nan3) uninit nan3
       NULL NULL NONE NONE.
Definition default {D} (uninit : D) : t D := construct uninit numeric_limits_max.

(** The arguments of the eight-parameter [update]. *)
Record args := mkargs {
  distance : FCL_REAL;
  o1_ : CollisionGeometry_ptr;
  o2_ : CollisionGeometry_ptr;
  b1_ : Z;
  b2_ : Z;
  p1 : Vec3f.t;
  p2 : Vec3f.t;
  normal_ : Vec3f.t
}.

(** [void update(FCL_REAL distance, const CollisionGeometry* o1_,
                 const CollisionGeometry* o2_, int b1_, int b2_,
                 const Vec3f& p1, const Vec3f& p2, const Vec3f& normal_)] *)
Definition update {D} (r : t D) (a : args) : t D :=
  if Real.gt (min_distance r) (distance a) then
    make (base r) (distance a) (p1 a, p2 a) (derivatives r) (normal_ a)
         (o1_ a) (o2_ a) (b1_ a) (b2_ a)
  else r.

(** [void clear()] *)
Definition clear {D} (r : t D) : t D :=
  make (QueryResult.make (QueryResult.cached_gjk_guess (base r))
                         (QueryResult.cached_support_func_guess (base r))
                         (CPUTimes.clear (QueryResult.timings (base r))))
       numeric_limits_max (nan3, nan3) (derivatives r) nan3
       NULL NULL NONE NONE.

(** [void update(FCL_REAL distance, const CollisionGeometry* o1_,
                 const CollisionGeometry* o2_, int b1_, int b2_)] *)
Definition update_ids {D} (r : t D) (distance : FCL_REAL)
           (o1_ o2_ : CollisionGeometry_ptr) (b1_ b2_ : Z) : t D :=
  if Real.gt (min_distance r) distance then
    make (base r) distance (nearest_points r) (derivatives r) (normal r)
         o1_ o2_ b1_ b2_
  else r.

(** [void update(const DistanceResult& other_result)] *)
Definition update_result {D} (r other_result : t D) : t D :=
  if Real.gt (min_distance r) (min_distance other_result) then
    make (base r) (min_distance other_result)
         (fst (nearest_points other_result), snd (nearest_points other_result))
         (derivatives r) (normal other_result)
         (o1 other_result) (o2 other_result)
         (b1 other_result) (b2 other_result)
  else r.

(** [bool operator==(const DistanceResult& other) const], with its two
    early returns. *)
Definition eqb {D} (r other : t D) : bool :=
  let is_same :=
    Real.eq (min_distance r) (min_distance other) &&
    Vec3f.eqb (fst (nearest_points r)) (fst (nearest_points other)) &&
    Vec3f.eqb (snd (nearest_points r)) (snd (nearest_points other)) &&
    Vec3f.eqb (normal r) (normal other) &&
    (o1 r =? o1 other)%N && (o2 r =? o2 other)%N &&
    (b1 r =? b1 other)%Z && (b2 r =? b2 other)%Z in
  if xorb (negb (o1 r =? NULL)%N) (negb (o1 other =? NULL)%N) then false
  else
    let is_same := is_same && (o1 r =? o1 other)%N in
    if xorb (negb (o2 r =? NULL)%N) (negb (o2 other =? NULL)%N) then false
    else is_same && (o2 r =? o2 other)%N.

End DistanceResult.

(** [namespace internal] *)
Module internal.
Import Real.

(** [void updateDistanceLowerBoundFromBV(const CollisionRequest&,
    CollisionResult& res, const FCL_REAL& sqrDistLowerBound)]; the request
    is not read. *)
Definition updateDistanceLowerBoundFromBV (res : CollisionResult.t)
           (sqrDistLowerBound : FCL_REAL) : CollisionResult.t :=
  if Real.le (CollisionResult.distance_lower_bound res) 0%float then res
  else
    let new_dlb := Real.sqrt sqrDistLowerBound in
    if Real.lt new_dlb (CollisionResult.distance_lower_bound res) then
      CollisionResult.make (CollisionResult.base res)
                           (CollisionResult.contacts res) new_dlb
                           (CollisionResult.nearest_points res)
    else res.

(** [void updateDistanceLowerBoundFromLeaf(const CollisionRequest&,
    CollisionResult& res, const FCL_REAL& distance, const Vec3f& p0,
    const Vec3f& p1)]; the request is not read. *)
Definition updateDistanceLowerBoundFromLeaf (res : CollisionResult.t)
           (distance : FCL_REAL) (p0 p1 : Vec3f.t) : CollisionResult.t :=
  if Real.lt distance (CollisionResult.distance_lower_bound res) then
    CollisionResult.make (CollisionResult.base res)
                         (CollisionResult.contacts res) distance (p0, p1)
  else res.

End internal.

(** ** python/distance.cc *)

(** [struct DistanceResultWrapper]: the accessors exposed to Python. *)
Module DistanceResultWrapper.

(** [static Vec3f getNearestPoint1(const DistanceResult& res)] *)
Definition getNearestPoint1 {D} (res : DistanceResult.t D) : Vec3f.t :=
  fst (DistanceResult.nearest_points res).

(** [static Vec3f getNearestPoint2(const DistanceResult& res)] *)
Definition getNearestPoint2 {D} (res : DistanceResult.t D) : Vec3f.t :=
  snd (DistanceResult.nearest_points res).

End DistanceResultWrapper.

(** ** shape/details/convex.hxx *)

(** [std::set<index_type>]: the elements in strictly ascending order, which
    is the order [begin()..end()] iterates in. *)
Module StdSet.

Definition t := list nat.

Fixpoint insert (x : nat) (s : t) : t :=
  match s with
  | [] => [x]
  | y :: s' =>
      if (x <? y)%nat then x :: s
      else if (x =? y)%nat then s
      else y :: insert x s'
  end.

Definition count (x : nat) (s : t) : nat :=
  if existsb (Nat.eqb x) s then 1%nat else 0%nat.

Definition size (s : t) : nat := length s.

End StdSet.

Module Convex.
Import Real.

(** Modelled from the spec: the template parameter [PolygonT] (Triangle,
    Quadrilateral, ... of data_types.h, not among the sources) is a face, an
    ordered sequence of vertex indices: [polygon.size()] of them,
    [polygon[j]] the j-th. *)
Definition PolygonT := list nat.

(** Modelled from the spec: [ConvexBase::Neighbors] (geometric_shapes.h,
    not among the sources) is the per-vertex view of the packed buffer, a
    count stored in one byte and a pointer:
    [struct Neighbors { unsigned char count_; unsigned int* n_; }].  [n_]
    points into [nneighbors_] and is kept as an offset. *)
Record Neighbors := mkNeighbors { count_ : N; n_ : nat }.

(** The adjacency data of a [ConvexBase]: [neighbors] (one entry per
    point) and the packed buffer [nneighbors_]. *)
Record NeighborTable := mkTable {
  neighbors : list Neighbors;
  nneighbors_ : list nat
}.

(** [unsigned int] arithmetic wraps modulo 2^32. *)
Definition UINT_MOD : N := (2 ^ 32)%N.
Definition uint_incr (c : N) : N := ((c + 1) mod UINT_MOD)%N.

(** [(std::numeric_limits<unsigned char>::max)()] *)
Definition UCHAR_MAX : nat := 255.

(** [v[i] = x] on a [std::vector]. *)
Fixpoint vector_set {A} (v : list A) (i : nat) (x : A) : list A :=
  match v, i with
  | [], _ => []
  | _ :: v', O => x :: v'
  | a :: v', S i' => a :: vector_set v' i' x
  end.

(** The state of the first loop of [fillNeighbors]: the vector
    [nneighbors] and the counter [c_nneighbors]. *)
Definition build_state := (list StdSet.t * N)%type.

(** [if (nneighbors[pj].count(p) == 0) { c_nneighbors++;
       nneighbors[pj].insert(p); }]; [None] when [pj] is not an index of
    the vector. *)
Definition register (st : build_state) (pj p : nat) : option build_state :=
  let '(nneighbors, c_nneighbors) := st in
  match nth_error nneighbors pj with
  | None => None
  | Some s =>
      if (StdSet.count p s =? 0)%nat
      then Some (vector_set nneighbors pj (StdSet.insert p s),
                 uint_incr c_nneighbors)
      else Some st
  end.

(** The positions [i] and [k] next to position [j] of a polygon of size
    [n]. *)
Definition prev_pos (n j : nat) : nat := if (j =? 0)%nat then n - 1 else j - 1.
Definition next_pos (n j : nat) : nat := if (j =? n - 1)%nat then 0%nat else j + 1.

(** The body of the loop over [j]. *)
Definition visit_position (polygon : PolygonT) (st : build_state) (j : nat)
  : option build_state :=
  let n := length polygon in
  let i := prev_pos n j in
  let k := next_pos n j in
  let pi := nth i polygon 0%nat in
  let pj := nth j polygon 0%nat in
  let pk := nth k polygon 0%nat in
  match register st pj pi with
  | None => None
  | Some st1 => register st1 pj pk
  end.

(** A [for] loop whose body may leave the defined behaviour. *)
Fixpoint for_each {S X} (body : S -> X -> option S) (xs : list X) (st : S)
  : option S :=
  match xs with
  | [] => Some st
  | x :: xs' =>
      match body st x with
      | None => None
      | Some st' => for_each body xs' st'
      end
  end.

(** [for (size_type j = 0; j < polygon.size(); ++j) ...] *)
Definition visit_polygon (st : build_state) (polygon : PolygonT)
  : option build_state :=
  for_each (visit_position polygon) (seq 0 (length polygon)) st.

(** The first loop: from [num_points] empty sets and a zero counter. *)
Definition build_sets (num_points : nat) (polygons : list PolygonT)
  : option build_state :=
  for_each visit_polygon polygons (repeat [] num_points, 0%N).

(** The second loop, from vertex [i] on: [p] is [p_nneighbors] as an
    offset into the buffer of [c_nneighbors] cells, [tbl] and [buf] what
    has been written so far. *)
Fixpoint flatten (sets : list StdSet.t) (c_nneighbors : N) (p : nat)
         (tbl : list Neighbors) (buf : list nat)
  : except NeighborTable :=
  match sets with
  | [] => Return (mkTable tbl buf)
  | s :: sets' =>
      if (UCHAR_MAX <=? StdSet.size s)%nat then Throw_logic_error
      else if (c_nneighbors <? N.of_nat (p + StdSet.size s))%N
           then Undefined_behaviour
           else flatten sets' c_nneighbors (p + StdSet.size s)
                  (tbl ++ [mkNeighbors (N.of_nat (StdSet.size s) mod 256) p])
                  (buf ++ s)
  end.

(** [void Convex<PolygonT>::fillNeighbors()] *)
Definition fillNeighbors (num_points : nat) (polygons : list PolygonT)
  : except NeighborTable :=
  match build_sets num_points polygons with
  | None => Undefined_behaviour
  | Some (nneighbors, c_nneighbors) =>
      flatten nneighbors c_nneighbors 0 [] []
  end.

(** The neighbours of vertex [v] as a reader of the table sees them:
    [count_] cells of the packed buffer from [n_] on. *)
Definition neighbors_of (t : NeighborTable) (v : nat) : list nat :=
  match nth_error (neighbors t) v with
  | None => []
  | Some n => firstn (N.to_nat (count_ n)) (skipn (n_ n) (nneighbors_ t))
  end.

(** *** Mass properties *)

(** [points_[idx]]; [None] outside the buffer. *)
Definition point (points : list Vec3f.t) (idx : nat) : option Vec3f.t :=
  nth_error points idx.

(** The conversion of [polygon.size()] or of an [int] literal to double. *)
Definition to_real (n : nat) : FCL_REAL :=
  PrimFloat.of_uint63 (Uint63.of_Z (Z.of_nat n)).

(** [plane_center]: the sum of the polygon's points from (0,0,0), then
    [/= polygon.size()]. *)
Definition plane_center (points : list Vec3f.t) (polygon : PolygonT)
  : option Vec3f.t :=
  match
    for_each (fun c idx => option_map (Vec3f.add c) (point points idx))
             polygon Vec3f.Zero
  with
  | None => None
  | Some c => Some (Vec3f.div c (to_real (length polygon)))
  end.

(** The two points of the triangle at position [j]. *)
Definition edge (points : list Vec3f.t) (polygon : PolygonT) (j : nat)
  : option (Vec3f.t * Vec3f.t) :=
  let e_first := nth j polygon 0%nat in
  let e_second := nth ((j + 1) mod length polygon) polygon 0%nat in
  match point points e_first, point points e_second with
  | Some v1, Some v2 => Some (v1, v2)
  | _, _ => None
  end.

(** [d_six_vol = (v1.cross(v2)).dot(v3)] *)
Definition d_six_vol (v1 v2 v3 : Vec3f.t) : FCL_REAL :=
  Vec3f.dot (Vec3f.cross v1 v2) v3.

(** One polygon of [computeVolume]: [vol += d_six_vol] per position. *)
Definition volume_polygon (points : list Vec3f.t) (vol : FCL_REAL)
           (polygon : PolygonT) : option FCL_REAL :=
  match plane_center points polygon with
  | None => None
  | Some v3 =>
      for_each (fun vol j =>
                  match edge points polygon j with
                  | None => None
                  | Some (v1, v2) => Some (vol + d_six_vol v1 v2 v3)%float
                  end)
               (seq 0 (length polygon)) vol
  end.

(** [FCL_REAL Convex<PolygonT>::computeVolume() const] *)
Definition computeVolume (points : list Vec3f.t) (polygons : list PolygonT)
  : option FCL_REAL :=
  match for_each (volume_polygon points) polygons 0%float with
  | None => None
  | Some vol => Some (vol / to_real 6)%float
  end.

(** One polygon of [computeCOM]: [vol] and [com] are updated together. *)
Definition com_polygon (points : list Vec3f.t) (st : Vec3f.t * FCL_REAL)
           (polygon : PolygonT) : option (Vec3f.t * FCL_REAL) :=
  match plane_center points polygon with
  | None => None
  | Some v3 =>
      for_each (fun '(com, vol) j =>
                  match edge points polygon j with
                  | None => None
                  | Some (v1, v2) =>
                      let d := d_six_vol v1 v2 v3 in
                      Some (Vec3f.add com
                              (Vec3f.scale (Vec3f.add (Vec3f.add v1 v2) v3) d),
                            (vol + d)%float)
                  end)
               (seq 0 (length polygon)) st
  end.

(** [Vec3f Convex<PolygonT>::computeCOM() const] *)
Definition computeCOM (points : list Vec3f.t) (polygons : list PolygonT)
  : option Vec3f.t :=
  match for_each (com_polygon points) polygons (Vec3f.Zero, 0%float) with
  | None => None
  | Some (com, vol) => Some (Vec3f.div com (vol * to_real 4)%float)
  end.

End Convex.

(** ** The unit cube of the mass-property checks *)

Module UnitCube.
Import Real Convex.

Definition h : FCL_REAL := 0.5%float.
Definition mh : FCL_REAL := (-0.5)%float.

(** The eight vertices (+-0.5, +-0.5, +-0.5); vertex [4 a + 2 b + c] has
    the signs (a, b, c), 0 for minus and 1 for plus. *)
Definition points : list Vec3f.t :=
  [ Vec3f.make mh mh mh; Vec3f.make mh mh h;
    Vec3f.make mh h mh;  Vec3f.make mh h h;
    Vec3f.make h mh mh;  Vec3f.make h mh h;
    Vec3f.make h h mh;   Vec3f.make h h h ].

(** The six quadrilaterals, counter-clockwise seen from outside:
    x = +0.5, x = -0.5, y = +0.5, y = -0.5, z = +0.5, z = -0.5. *)
Definition polygons : list PolygonT :=
  [ [4; 6; 7; 5]; [0; 1; 3; 2]; [2; 3; 7; 6];
    [0; 4; 5; 1]; [1; 5; 7; 3]; [0; 2; 6; 4] ]%nat.

End UnitCube.

(** ** Sample requests and results *)

Module Examples.

(** A default request with [gjk_initial_guess = g] and
    [enable_cached_gjk_guess = e]. *)
Definition request (g : GJKInitialGuess) (e : bool) : QueryRequest.t :=
  QueryRequest.make g e DefaultGJK VDB Relative
    (QueryRequest.gjk_tolerance QueryRequest.default) 128%N
    (QueryRequest.cached_gjk_guess QueryRequest.default)
    (QueryRequest.cached_support_func_guess QueryRequest.default)
    false (QueryRequest.collision_distance_threshold QueryRequest.default).

(** A result whose solver left the ray (0,1,0) and the support hint (3,4). *)
Definition solved : QueryResult.t :=
  QueryResult.make (Vec3f.make 0%float 1%float 0%float) (3%Z, 4%Z)
                   CPUTimes.default.

(** The arguments of a call [update(d, o1, o2, 3, 4, 0, 0, 0)] with objects
    at the addresses 1 and 2. *)
Definition call (d : Real.FCL_REAL) : DistanceResult.args :=
  DistanceResult.mkargs d 1%N 2%N 3%Z 4%Z Vec3f.Zero Vec3f.Zero Vec3f.Zero.

(** A contact between the objects at addresses 1 and 2, with all vectors
    zero. *)
Definition contact (b1 b2 : Z) : Contact.t :=
  Contact.make 1%N 2%N b1 b2 Vec3f.Zero (Vec3f.Zero, Vec3f.Zero) Vec3f.Zero
               0%float.

(** A collision result holding the given contacts. *)
Definition collided (cs : list Contact.t) : CollisionResult.t :=
  fold_left CollisionResult.addContact cs
            (CollisionResult.default (Vec3f.Zero, Vec3f.Zero)).

(** The bipyramid over a [k]-gon, as triangles: apexes 0 and [k + 1],
    equator vertices 1..k; the upper triangles (0, i, i+1) and the lower
    triangles (k+1, i+1, i), both closing with vertex 1 after vertex k. *)
Definition bipyramid (k : nat) : list Convex.PolygonT :=
  map (fun i => [0; i; if (i =? k)%nat then 1 else S i]) (seq 1 k) ++
  map (fun i => [S k; if (i =? k)%nat then 1 else S i; i]) (seq 1 k).

(** The unit cube with its vertices numbered backwards (vertex [i] of
    [UnitCube.points] is vertex [7 - i] here), its faces in another order
    and each face listed from another corner. *)
Definition renumbered_points : list Vec3f.t := rev UnitCube.points.

Definition renumbered_polygons : list Convex.PolygonT :=
  [ [3; 2; 6; 7]; [0; 2; 3; 1]; [7; 5; 1; 3];
    [5; 7; 6; 4]; [2; 0; 4; 6]; [0; 1; 5; 4] ]%nat.

End Examples.

(** ** Vocabulary of the properties *)

Module Spec.
Import Real.

(** [m] is a minimum of the doubles [ds]: one of them, with none of them
    strictly below it. *)
Definition is_minimum (m : FCL_REAL) (ds : list FCL_REAL) : Prop :=
  In m ds /\ forall d, In d ds -> Real.lt d m = false.

(** Two doubles that [==] identifies: the same double and not NaN, or two
    zeros (of either sign). *)
Definition same_double (a b : FCL_REAL) : Prop :=
  (a = b /\ Real.eq a a = true) \/
  (Real.eq a 0%float = true /\ Real.eq b 0%float = true).

Definition same_vector (a b : Vec3f.t) : Prop :=
  same_double (Vec3f.x a) (Vec3f.x b) /\
  same_double (Vec3f.y a) (Vec3f.y b) /\
  same_double (Vec3f.z a) (Vec3f.z b).

(** A contact with its nearest-point pair replaced. *)
Definition with_nearest_points (c : Contact.t) (np : Vec3f.t * Vec3f.t)
  : Contact.t :=
  Contact.make (Contact.o1 c) (Contact.o2 c) (Contact.b1 c) (Contact.b2 c)
               (Contact.normal c) np (Contact.pos c)
               (Contact.penetration_depth c).

(** The calls [update(d_1, ...), ..., update(d_n, ...)] in this order. *)
Definition run_updates {D} (r : DistanceResult.t D)
           (calls : list DistanceResult.args) : DistanceResult.t D :=
  fold_left DistanceResult.update calls r.

(** The seven fields that [update] writes hold the arguments [a]. *)
Definition holds_args {D} (r : DistanceResult.t D) (a : DistanceResult.args)
  : Prop :=
  DistanceResult.min_distance r = DistanceResult.distance a /\
  DistanceResult.o1 r = DistanceResult.o1_ a /\
  DistanceResult.o2 r = DistanceResult.o2_ a /\
  DistanceResult.b1 r = DistanceResult.b1_ a /\
  DistanceResult.b2 r = DistanceResult.b2_ a /\
  DistanceResult.nearest_points r =
    (DistanceResult.p1 a, DistanceResult.p2 a) /\
  DistanceResult.normal r = DistanceResult.normal_ a.

(** The fields of a [DistanceResult] that [update] never writes. *)
Definition same_frame {D} (r r' : DistanceResult.t D) : Prop :=
  DistanceResult.base r' = DistanceResult.base r /\
  DistanceResult.derivatives r' = DistanceResult.derivatives r.

(** What a sequence of calls leaves: either nothing was below the initial
    [min_distance] and the result is untouched, or the fields are those of
    call [k], whose distance is below the initial value, is a minimum of all
    the distances, and is not reached (or passed) by any earlier call. *)
Definition winner {D} (r : DistanceResult.t D)
           (calls : list DistanceResult.args) (rf : DistanceResult.t D)
  : Prop :=
  ((forall a, In a calls ->
      Real.lt (DistanceResult.distance a) (DistanceResult.min_distance r) = false)
   /\ rf = r)
  \/
  (exists k a,
      nth_error calls k = Some a /\
      Real.lt (DistanceResult.distance a) (DistanceResult.min_distance r) = true /\
      holds_args rf a /\
      is_minimum (DistanceResult.distance a) (map DistanceResult.distance calls) /\
      forall j a', j < k -> nth_error calls j = Some a' ->
        (DistanceResult.distance a' <=? DistanceResult.distance a)%float = false).

(** The calls [updateDistanceLowerBound(c_1)], ..., in this order. *)
Definition run_lower_bounds (r : CollisionResult.t) (cs : list FCL_REAL)
  : CollisionResult.t :=
  fold_left CollisionResult.updateDistanceLowerBound cs r.

(** *** Adjacency *)

(** Every index of every polygon is an index of the vertex buffer. *)
Definition valid_polygons (num_points : nat) (polygons : list Convex.PolygonT)
  : Prop :=
  forall f, In f polygons -> forall p, In p f -> p < num_points.

(** The number of polygon corners. *)
Definition corners (polygons : list Convex.PolygonT) : nat :=
  list_sum (map (@length nat) polygons).

(** [u] is next to [v] on the polygon [f]: [v] sits at a position [j] and
    [u] at [j - 1] or [j + 1] modulo the size of [f]. *)
Definition face_neighbor (f : Convex.PolygonT) (v u : nat) : Prop :=
  exists j, j < length f /\ nth j f 0 = v /\
            (nth ((j + length f - 1) mod length f) f 0 = u \/
             nth ((j + 1) mod length f) f 0 = u).

(** [u] is registered as a neighbour of [v] by some polygon. *)
Definition adjacent (polygons : list Convex.PolygonT) (v u : nat) : Prop :=
  exists f, In f polygons /\ face_neighbor f v u.

(** Vertex [v] accumulates at most [k] distinct neighbours; more than [k]. *)
Definition at_most_neighbors (polygons : list Convex.PolygonT) (v k : nat)
  : Prop :=
  forall l, NoDup l -> (forall u, In u l -> adjacent polygons v u) ->
            length l <= k.

Definition more_neighbors_than (polygons : list Convex.PolygonT) (v k : nat)
  : Prop :=
  exists l, NoDup l /\ (forall u, In u l -> adjacent polygons v u) /\
            k < length l.

(** The table stores the neighbours of [v] whole: [count_] is their number
    and the [count_] cells are exactly the distinct [u] next to [v]. *)
Definition stores_neighbors (polygons : list Convex.PolygonT)
           (t : Convex.NeighborTable) (v : nat) : Prop :=
  NoDup (Convex.neighbors_of t v) /\
  (forall u, In u (Convex.neighbors_of t v) <-> adjacent polygons v u) /\
  exists e, nth_error (Convex.neighbors t) v = Some e /\
            N.to_nat (Convex.count_ e) = length (Convex.neighbors_of t v) /\
            at_most_neighbors polygons v (N.to_nat (Convex.count_ e)).

(** All vertices have at most [k] registered neighbours, computed by the
    first loop of [fillNeighbors]. *)
Definition degrees_le (num_points : nat) (polygons : list Convex.PolygonT)
           (k : nat) : bool :=
  match Convex.build_sets num_points polygons with
  | Some (nneighbors, _) =>
      forallb (fun s => (StdSet.size s <=? k)%nat) nneighbors
  | None => false
  end.

(** *** The loops of [fillNeighbors] *)

(** The number of cells the sets take once flattened. *)
Definition total_size (sets : list StdSet.t) : nat :=
  list_sum (map StdSet.size sets).

(** The relation [R] with the pair ([a], [b]) added. *)
Definition extend (R : nat -> nat -> Prop) (a b : nat) : nat -> nat -> Prop :=
  fun v u => R v u \/ (v = a /\ u = b).

(** The state of the first loop once the pairs of [R] have been
    registered, with at most [k] insertions. *)
Definition registered (n : nat) (R : nat -> nat -> Prop) (k : nat)
           (st : Convex.build_state) : Prop :=
  length (fst st) = n /\
  (forall v s, nth_error (fst st) v = Some s ->
               StronglySorted Nat.lt s /\ forall u, In u s <-> R v u) /\
  total_size (fst st) <= k /\
  snd st = (N.of_nat (total_size (fst st)) mod Convex.UINT_MOD)%N.

(** What position [j] of the polygon [f] registers. *)
Definition position_pairs (f : Convex.PolygonT) (j : nat) (v u : nat) : Prop :=
  v = nth j f 0 /\
  (u = nth (Convex.prev_pos (length f) j) f 0 \/
   u = nth (Convex.next_pos (length f) j) f 0).

(** The table entries the second loop writes for [sets], the first one
    pointing at offset [p]. *)
Fixpoint entries (sets : list StdSet.t) (p : nat) : list Convex.Neighbors :=
  match sets with
  | [] => []
  | s :: sets' =>
      Convex.mkNeighbors (N.of_nat (StdSet.size s) mod 256) p
        :: entries sets' (p + StdSet.size s)
  end.

(** *** Mass properties as a centroid-fan decomposition *)

(** A tetrahedron of the decomposition, by its three vertices other than
    the origin: two consecutive vertices of a face and the face anchor. *)
Definition triangle := (Vec3f.t * Vec3f.t * Vec3f.t)%type.

(** Reading a list of cells, all of which must exist. *)
Fixpoint mapM {X Y} (g : X -> option Y) (xs : list X) : option (list Y) :=
  match xs with
  | [] => Some []
  | x :: xs' =>
      match g x, mapM g xs' with
      | Some y, Some ys => Some (y :: ys)
      | _, _ => None
      end
  end.

(** The vertices of a polygon, in its order. *)
Definition resolve (points : list Vec3f.t) (polygon : Convex.PolygonT)
  : option (list Vec3f.t) :=
  mapM (Convex.point points) polygon.

(** The face anchor: the arithmetic mean of the vertices of the face. *)
Definition anchor (vs : list Vec3f.t) : Vec3f.t :=
  Vec3f.div (fold_left Vec3f.add vs Vec3f.Zero) (Convex.to_real (length vs)).

(** The fan of a face: the triangles (v_j, v_{j+1}, anchor), going around. *)
Definition fan (vs : list Vec3f.t) : list triangle :=
  map (fun j => (nth j vs Vec3f.Zero,
                 nth ((j + 1) mod length vs) vs Vec3f.Zero,
                 anchor vs))
      (seq 0 (length vs)).

(** All the triangles of a polytope, face after face. *)
Definition fans (points : list Vec3f.t) (polygons : list Convex.PolygonT)
  : option (list triangle) :=
  option_map (fun faces => concat (map fan faces))
             (mapM (resolve points) polygons).

(** Six times the signed volume of a tetrahedron: (v1 x v2) . v3. *)
Definition six_vol (t : triangle) : FCL_REAL :=
  let '(v1, v2, v3) := t in Vec3f.dot (Vec3f.cross v1 v2) v3.

(** The sum of the six-times-signed-volumes, added from 0 in order. *)
Definition sum_six_vol (ts : list triangle) : FCL_REAL :=
  fold_left (fun acc t => (acc + six_vol t)%float) ts 0%float.

(** The sum of (v_j + v_{j+1} + anchor) * six_vol, added from (0,0,0). *)
Definition sum_weighted (ts : list triangle) : Vec3f.t :=
  fold_left (fun acc t =>
               let '(v1, v2, v3) := t in
               Vec3f.add acc (Vec3f.scale (Vec3f.add (Vec3f.add v1 v2) v3)
                                          (six_vol t)))
            ts Vec3f.Zero.

(** The accumulators [com] and [vol] of [computeCOM] after one more
    triangle, and after one more face. *)
Definition accumulate (st : Vec3f.t * FCL_REAL) (t : triangle)
  : Vec3f.t * FCL_REAL :=
  let '(com, vol) := st in
  let '(v1, v2, v3) := t in
  (Vec3f.add com (Vec3f.scale (Vec3f.add (Vec3f.add v1 v2) v3) (six_vol t)),
   (vol + six_vol t)%float).

Definition add_face (st : Vec3f.t * FCL_REAL) (vs : list Vec3f.t)
  : Vec3f.t * FCL_REAL :=
  fold_left accumulate (fan vs) st.

(** Volume = (sum of six_vol) / 6. *)
Definition fan_volume (points : list Vec3f.t) (polygons : list Convex.PolygonT)
  : option FCL_REAL :=
  option_map (fun ts => (sum_six_vol ts / 6)%float) (fans points polygons).

(** Centre of mass = (sum of weighted vertices) / (4 * sum of six_vol), the
    denominator being formed as the code does, sum * 4. *)
Definition fan_com (points : list Vec3f.t) (polygons : list Convex.PolygonT)
  : option Vec3f.t :=
  option_map (fun ts => Vec3f.div (sum_weighted ts) (sum_six_vol ts * 4)%float)
             (fans points polygons).

(** The request selects the cached warm start: by [gjk_initial_guess], or
    by the deprecated flag [enable_cached_gjk_guess]. *)
Definition selects_cached_guess (req : QueryRequest.t) : bool :=
  GJKInitialGuess_eqb (QueryRequest.gjk_initial_guess req) CachedGuess
  || QueryRequest.enable_cached_gjk_guess req.

End Spec.

(** ** Presentations of the unit cube *)

Module UnitCubeSpec.
Import Real Spec.

(** The six faces of the unit cube as lists of vertices. *)
Definition faces : list (list Vec3f.t) :=
  map (map (fun i => nth i UnitCube.points Vec3f.Zero)) UnitCube.polygons.

(** A list read from its [r]-th element on, going around. *)
Definition rotate {A} (r : nat) (l : list A) : list A := skipn r l ++ firstn r l.

(** Face [fst p] of the cube, listed from its corner [snd p] on. *)
Definition oriented (p : nat * nat) : list Vec3f.t :=
  rotate (snd p) (nth (fst p) faces []).

(** [points] and [polygons] describe the unit cube: the polygons are its six
    outward faces, each once, in any order and each from any of its four
    corners on (whatever the numbering of the vertices). *)
Definition presents_unit_cube (points : list Vec3f.t)
           (polygons : list Convex.PolygonT) : Prop :=
  exists picks : list (nat * nat),
    Permutation (map fst picks) (seq 0 6) /\
    Forall (fun p => snd p < 4) picks /\
    mapM (resolve points) polygons = Some (map oriented picks).

(** The accumulators once the faces marked in [b] have been added. *)
Definition after_faces (b : list bool) : Vec3f.t * FCL_REAL :=
  fold_left add_face
            (map (fun i => oriented (i, 0))
                 (filter (fun i => nth i b false) (seq 0 6)))
            (Vec3f.Zero, 0%float).

Fixpoint all_bools (n : nat) : list (list bool) :=
  match n with
  | O => [[]]
  | S n' => flat_map (fun b => [false :: b; true :: b]) (all_bools n')
  end.

(** The same doubles, bit for bit. *)
Definition state_eqb (s1 s2 : Vec3f.t * FCL_REAL) : bool :=
  Leibniz.eqb (Vec3f.x (fst s1)) (Vec3f.x (fst s2)) &&
  Leibniz.eqb (Vec3f.y (fst s1)) (Vec3f.y (fst s2)) &&
  Leibniz.eqb (Vec3f.z (fst s1)) (Vec3f.z (fst s2)) &&
  Leibniz.eqb (snd s1) (snd s2).

(** Adding an unmarked face, from any of its corners, to the accumulators
    of the marked faces gives the accumulators of the larger set. *)
Definition transitions_agree : bool :=
  forallb (fun b =>
     forallb (fun i =>
        nth i b false ||
        forallb (fun r =>
                   state_eqb (add_face (after_faces b) (oriented (i, r)))
                             (after_faces (Convex.vector_set b i true)))
                (seq 0 4))
       (seq 0 6))
    (all_bools 6).

(** The faces marked once the picks have been added. *)
Definition marked (picks : list (nat * nat)) (b : list bool) : list bool :=
  fold_left (fun b p => Convex.vector_set b (fst p) true) picks b.

End UnitCubeSpec.

(** ** Views and relations used by the further properties *)

(** The arguments that [update(other_result)] takes from [other_result]. *)
Definition args_of_result {D} (other : DistanceResult.t D) : DistanceResult.args :=
  DistanceResult.mkargs
    (DistanceResult.min_distance other)
    (DistanceResult.o1 other) (DistanceResult.o2 other)
    (DistanceResult.b1 other) (DistanceResult.b2 other)
    (fst (DistanceResult.nearest_points other))
    (snd (DistanceResult.nearest_points other))
    (DistanceResult.normal other).

(** A leaf call [(distance, p0, p1)]. *)
Definition leaf_call := (Real.FCL_REAL * Vec3f.t * Vec3f.t)%type.


(** The calls [updateDistanceLowerBoundFromLeaf(req, res, d, p0, p1)] in
    order. *)
Definition run_leaves (res : CollisionResult.t) (calls : list leaf_call)
  : CollisionResult.t :=
  fold_left (fun res c =>
               internal.updateDistanceLowerBoundFromLeaf
                 res (fst (fst c)) (snd (fst c)) (snd c))
            calls res.



(** Two index lists trace the same face when one is the other started from
    another corner, possibly walked the other way round. *)
Definition same_cycle (f f' : Convex.PolygonT) : Prop :=
  exists r, f' = UnitCubeSpec.rotate r f \/ f' = rev (UnitCubeSpec.rotate r f).

(** Two polygon arrays list the same faces, in any order and any number
    of times. *)
Definition same_faces (polygons polygons' : list Convex.PolygonT) : Prop :=
  (forall f, In f polygons -> exists f', In f' polygons' /\ same_cycle f f') /\
  (forall f', In f' polygons' -> exists f, In f polygons /\ same_cycle f f').

(* ================================================================== *)
(** * Part II: properties                                             *)
(* ================================================================== *)

Unset Implicit Arguments.

(** ** Comparisons of doubles *)

Section FloatOrder.
Import Real.

Lemma SFcompare_finite_same_sign (s : bool) m1 e1 m2 e2 :
  SFcompare (S754_finite s m1 e1) (S754_finite s m2 e2) =
  Some (let c := match Z.compare e1 e2 with
                 | Eq => Pos.compare m1 m2
                 | c => c
                 end in
        if s then CompOpp c else c).
Proof.
  unfold SFcompare. change (Pos.compare_cont Eq m1 m2) with (Pos.compare m1 m2).
  destruct s; destruct (Z.compare e1 e2); reflexivity.
Qed.

Lemma lex_compare_Lt_trans e1 m1 e2 m2 e3 m3 :
  lex_compare e1 m1 e2 m2 = Lt -> lex_compare e2 m2 e3 m3 = Lt ->
  lex_compare e1 m1 e3 m3 = Lt.
Proof.
  unfold lex_compare.
  destruct (Z.compare_spec e1 e2), (Z.compare_spec e2 e3), (Z.compare_spec e1 e3);
    try lia; try discriminate; try reflexivity; subst;
    destruct (Pos.compare_spec m1 m2), (Pos.compare_spec m2 m3),
      (Pos.compare_spec m1 m3); try lia; try discriminate; reflexivity.
Qed.

Lemma lex_compare_Eq_iff e1 m1 e2 m2 :
  lex_compare e1 m1 e2 m2 = Eq <-> e1 = e2 /\ m1 = m2.
Proof.
  unfold lex_compare.
  destruct (Z.compare_spec e1 e2); [destruct (Pos.compare_spec m1 m2)| |];
    split; intros; try discriminate; try lia; auto.
Qed.

Lemma lex_compare_antisym e1 m1 e2 m2 :
  lex_compare e2 m2 e1 m1 = CompOpp (lex_compare e1 m1 e2 m2).
Proof.
  unfold lex_compare. rewrite (Z.compare_antisym e1 e2), (Pos.compare_antisym m1 m2).
  destruct (Z.compare e1 e2); reflexivity.
Qed.

Lemma SFltb_irrefl a : SFltb a a = false.
Proof.
  destruct a as [s|s| |s m e]; try (destruct s; reflexivity); try reflexivity.
  unfold SFltb. rewrite SFcompare_finite_same_sign.
  rewrite Z.compare_refl, Pos.compare_refl. destruct s; reflexivity.
Qed.

Lemma SFltb_trans a b c :
  SFltb a b = true -> SFltb b c = true -> SFltb a c = true.
Proof.
  unfold SFltb.
  destruct a as [sa|sa| |sa ma ea], b as [sb|sb| |sb mb eb],
    c as [sc|sc| |sc mc ec];
    try (destruct sa; try discriminate); try (destruct sb; try discriminate);
    try (destruct sc; try discriminate);
    try (cbn; congruence);
    rewrite !SFcompare_finite_same_sign; fold (lex_compare ea ma eb mb);
    fold (lex_compare eb mb ec mc); fold (lex_compare ea ma ec mc); cbv zeta.
  - (* three negative finite numbers: the order of the magnitudes, reversed *)
    intros H1 H2.
    assert (H3 : lex_compare ec mc eb mb = Lt).
    { rewrite lex_compare_antisym. destruct (lex_compare eb mb ec mc); simpl in *; congruence. }
    assert (H4 : lex_compare eb mb ea ma = Lt).
    { rewrite lex_compare_antisym. destruct (lex_compare ea ma eb mb); simpl in *; congruence. }
    rewrite (lex_compare_antisym ec mc ea ma).
    rewrite (lex_compare_Lt_trans _ _ _ _ _ _ H3 H4). reflexivity.
  - (* three positive finite numbers *)
    intros H1 H2.
    destruct (lex_compare ea ma eb mb) eqn:E1; try discriminate.
    destruct (lex_compare eb mb ec mc) eqn:E2; try discriminate.
    rewrite (lex_compare_Lt_trans _ _ _ _ _ _ E1 E2). reflexivity.
Qed.

Lemma SFleb_SFltb_trans a b c :
  SFleb a b = true -> SFltb b c = true -> SFltb a c = true.
Proof.
  unfold SFleb, SFltb.
  destruct a as [sa|sa| |sa ma ea], b as [sb|sb| |sb mb eb],
    c as [sc|sc| |sc mc ec];
    try (destruct sa; try discriminate); try (destruct sb; try discriminate);
    try (destruct sc; try discriminate);
    try (cbn; congruence);
    rewrite !SFcompare_finite_same_sign; fold (lex_compare ea ma eb mb);
    fold (lex_compare eb mb ec mc); fold (lex_compare ea ma ec mc); cbv zeta.
  - intros H1 H2.
    destruct (lex_compare ea ma eb mb) eqn:E1; try discriminate.
    + apply lex_compare_Eq_iff in E1 as [-> ->]. exact H2.
    + assert (H3 : lex_compare ec mc eb mb = Lt).
      { rewrite lex_compare_antisym. destruct (lex_compare eb mb ec mc); simpl in *; congruence. }
      assert (H4 : lex_compare eb mb ea ma = Lt).
      { rewrite lex_compare_antisym, E1. reflexivity. }
      rewrite (lex_compare_antisym ec mc ea ma).
      rewrite (lex_compare_Lt_trans _ _ _ _ _ _ H3 H4). reflexivity.
  - intros H1 H2.
    destruct (lex_compare eb mb ec mc) eqn:E2; try discriminate.
    destruct (lex_compare ea ma eb mb) eqn:E1; try discriminate.
    + apply lex_compare_Eq_iff in E1 as [-> ->]. rewrite E2. reflexivity.
    + rewrite (lex_compare_Lt_trans _ _ _ _ _ _ E1 E2). reflexivity.
Qed.

(** [a == b] on the specification side: equal numbers, or two zeros. *)
Lemma SFeqb_true_iff a b :
    SFeqb a b = true <->
    (a = b /\ a <> S754_nan) \/ (exists s s', a = S754_zero s /\ b = S754_zero s').
Proof.
  unfold SFeqb.
  destruct a as [sa|sa| |sa ma ea], b as [sb|sb| |sb mb eb];
    try destruct sa; try destruct sb.
  all: try solve [cbn; split; [discriminate | intros [[? ?]|(? & ? & ? & ?)]; congruence]].
  all: try solve [cbn; split; [intros _; right; eauto | reflexivity]].
  all: try solve [cbn; split; [intros _; left; split; congruence | reflexivity]].
  all: rewrite SFcompare_finite_same_sign; fold (lex_compare ea ma eb mb); cbv zeta.
  all: destruct (lex_compare ea ma eb mb) eqn:E; cbn.
  all: try (apply lex_compare_Eq_iff in E as [-> ->];
            split; [intros _; left; split; congruence| reflexivity]).
  all: split; [discriminate|]; intros [[H ?]|(? & ? & ? & ?)]; [|discriminate].
  all: injection H as -> ->; unfold lex_compare in E;
    rewrite Z.compare_refl, Pos.compare_refl in E; discriminate.
Qed.

(** The same facts on doubles. *)
Lemma ltb_irrefl (a : float) : (a <? a)%float = false.
Proof. rewrite ltb_spec. apply SFltb_irrefl. Qed.

Lemma ltb_trans (a b c : float) :
  (a <? b)%float = true -> (b <? c)%float = true -> (a <? c)%float = true.
Proof. rewrite !ltb_spec. apply SFltb_trans. Qed.

Lemma leb_ltb_trans (a b c : float) :
  (a <=? b)%float = true -> (b <? c)%float = true -> (a <? c)%float = true.
Proof. rewrite leb_spec, !ltb_spec. apply SFleb_SFltb_trans. Qed.

Lemma ltb_asym (a b : float) : (a <? b)%float = true -> (b <? a)%float = false.
Proof.
  intros H. destruct (b <? a)%float eqn:E; [|reflexivity].
  pose proof (ltb_trans _ _ _ H E) as H'. rewrite ltb_irrefl in H'. discriminate.
Qed.

Lemma ltb_not_leb (a b : float) : (a <? b)%float = true -> (b <=? a)%float = false.
Proof.
  intros H. destruct (b <=? a)%float eqn:E; [|reflexivity].
  pose proof (leb_ltb_trans _ _ _ E H) as H'. rewrite ltb_irrefl in H'. discriminate.
Qed.

(** [a == b] holds exactly when neither is NaN and they are the same
    double or both are zeros (of either sign). *)
Lemma eqb_true_iff (a b : float) :
  (a =? b)%float = true <->
  (a = b /\ (a =? a)%float = true) \/
  ((a =? 0)%float = true /\ (b =? 0)%float = true).
Proof.
  rewrite !eqb_spec.
  change (Prim2SF 0%float) with (S754_zero false).
  rewrite !SFeqb_true_iff. split.
  - intros [[H1 H2]|(s & s' & H1 & H2)].
    + left. split; [apply Prim2SF_inj, H1|]. left. auto.
    + right. split; right; eauto.
  - intros [[-> H]|[H1 H2]].
    + destruct H as [[_ H]|(s & s' & H & _)]; [left; auto|].
      left. split; [reflexivity|]. rewrite H. discriminate.
    + destruct H1 as [[H1 _]|(s & _ & H1 & _)], H2 as [[H2 _]|(s' & _ & H2 & _)];
        right; eauto.
Qed.

End FloatOrder.

(** ** DistanceResult::update *)

Section DistanceResultUpdate.
Import Real Spec.
Context {D : Type}.
Implicit Types (r : DistanceResult.t D) (a : DistanceResult.args).

Lemma update_taken r a :
  Real.lt (DistanceResult.distance a) (DistanceResult.min_distance r) = true ->
  holds_args (DistanceResult.update r a) a /\
  same_frame r (DistanceResult.update r a).
Proof.
  intros H. unfold DistanceResult.update, Real.gt. unfold Real.lt in H.
  rewrite H. repeat split.
Qed.

Lemma update_skipped r a :
  Real.lt (DistanceResult.distance a) (DistanceResult.min_distance r) = false ->
  DistanceResult.update r a = r.
Proof.
  intros H. unfold DistanceResult.update, Real.gt. unfold Real.lt in H.
  rewrite H. reflexivity.
Qed.

Lemma run_updates_winner calls : forall r, winner r calls (run_updates r calls).
Proof.
  induction calls as [|a0 rest IH]; intros r.
  - left. split; [intros a []|reflexivity].
  - cbn [run_updates fold_left].
    destruct (Real.lt (DistanceResult.distance a0) (DistanceResult.min_distance r)) eqn:E0.
    + (* the first call replaces the fields *)
      destruct (update_taken r a0 E0) as [Hargs _].
      pose proof Hargs as (Hmin & _).
      destruct (IH (DistanceResult.update r a0))
        as [[Hnone Heq]|(k & a & Hk & Hlt & Hf & [Hin Hlow] & Hfirst)].
      * right. exists 0, a0. fold (run_updates (DistanceResult.update r a0) rest).
        rewrite Heq. repeat split; try apply Hargs; auto.
        -- left. reflexivity.
        -- intros d [<-|Hd]; [apply ltb_irrefl|].
           apply in_map_iff in Hd as (a' & <- & Ha').
           rewrite <- Hmin. apply Hnone, Ha'.
        -- intros j a' Hj. lia.
      * right. exists (S k), a. rewrite Hmin in Hlt.
        repeat split; try apply Hf; auto.
        -- unfold Real.lt in *. eapply ltb_trans; eassumption.
        -- right. exact Hin.
        -- intros d [<-|Hd]; [apply ltb_asym, Hlt|apply Hlow, Hd].
        -- intros [|j] a' Hj Hnth; cbn in Hnth.
           ++ injection Hnth as <-. apply ltb_not_leb, Hlt.
           ++ apply (Hfirst j a'); [lia|exact Hnth].
    + (* the first call changes nothing *)
      rewrite (update_skipped r a0 E0).
      destruct (IH r) as [[Hnone Heq]|(k & a & Hk & Hlt & Hf & [Hin Hlow] & Hfirst)].
      * left. split; [|exact Heq]. intros a [<-|Ha]; auto.
      * right. exists (S k), a. repeat split; try apply Hf; auto.
        -- right. exact Hin.
        -- intros d [<-|Hd]; [|apply Hlow, Hd].
           destruct (Real.lt (DistanceResult.distance a0) (DistanceResult.distance a))
             eqn:E; [|reflexivity].
           unfold Real.lt in *. rewrite (ltb_trans _ _ _ E Hlt) in E0. discriminate.
        -- intros [|j] a' Hj Hnth; cbn in Hnth.
           ++ injection Hnth as <-.
              destruct (DistanceResult.distance a0 <=? DistanceResult.distance a)%float
                eqn:E; [|reflexivity].
              unfold Real.lt in *. rewrite (leb_ltb_trans _ _ _ E Hlt) in E0. discriminate.
           ++ apply (Hfirst j a'); [lia|exact Hnth].
Qed.

End DistanceResultUpdate.



(** After the distances 3, 1, 2, 1 the result holds the second call. *)
Example run_updates_second_call_wins :
  DistanceResult.min_distance
    (Spec.run_updates (DistanceResult.default tt)
       [Examples.call 3%float; Examples.call 1%float; Examples.call 2%float;
        Examples.call 1%float]) = 1%float.
Proof. vm_compute. reflexivity. Qed.


(** ** CollisionResult::updateDistanceLowerBound *)

Section LowerBound.
Import Real Spec.

Lemma updateDistanceLowerBound_step (r : CollisionResult.t) (c : FCL_REAL) :
  is_minimum
    (CollisionResult.distance_lower_bound (CollisionResult.updateDistanceLowerBound r c))
    [CollisionResult.distance_lower_bound r; c] /\
  (CollisionResult.distance_lower_bound (CollisionResult.updateDistanceLowerBound r c)
   = CollisionResult.distance_lower_bound r \/
   Real.lt (CollisionResult.distance_lower_bound (CollisionResult.updateDistanceLowerBound r c))
           (CollisionResult.distance_lower_bound r) = true).
Proof.
  unfold CollisionResult.updateDistanceLowerBound, is_minimum.
  destruct (Real.lt c (CollisionResult.distance_lower_bound r)) eqn:E; cbn.
  - split; [split|]; auto.
    intros d [<-|[<-|[]]]; unfold Real.lt in *; [apply ltb_asym, E|apply ltb_irrefl].
  - split; [split|]; auto.
    intros d [<-|[<-|[]]]; unfold Real.lt in *; [apply ltb_irrefl|exact E].
Qed.

Lemma updateDistanceLowerBound_frame (r : CollisionResult.t) (c : FCL_REAL) :
  CollisionResult.base (CollisionResult.updateDistanceLowerBound r c) = CollisionResult.base r /\
  CollisionResult.contacts (CollisionResult.updateDistanceLowerBound r c)
  = CollisionResult.contacts r /\
  CollisionResult.nearest_points (CollisionResult.updateDistanceLowerBound r c)
  = CollisionResult.nearest_points r.
Proof.
  unfold CollisionResult.updateDistanceLowerBound.
  destruct (Real.lt c (CollisionResult.distance_lower_bound r)); repeat split.
Qed.

(** Over a sequence the bound stays or goes strictly down. *)
Lemma run_lower_bounds_decreases (cs : list FCL_REAL) : forall r,
  CollisionResult.distance_lower_bound (run_lower_bounds r cs)
  = CollisionResult.distance_lower_bound r \/
  Real.lt (CollisionResult.distance_lower_bound (run_lower_bounds r cs))
          (CollisionResult.distance_lower_bound r) = true.
Proof.
  induction cs as [|c cs IH]; intros r; cbn.
  - left. reflexivity.
  - fold (run_lower_bounds (CollisionResult.updateDistanceLowerBound r c) cs).
    destruct (IH (CollisionResult.updateDistanceLowerBound r c)) as [H|H];
      destruct (updateDistanceLowerBound_step r c) as [_ [H1|H1]].
    + left. congruence.
    + right. rewrite H. exact H1.
    + right. rewrite <- H1. exact H.
    + right. unfold Real.lt in *. eapply ltb_trans; eassumption.
Qed.

Lemma run_lower_bounds_not_above (cs : list FCL_REAL) (r : CollisionResult.t) :
  Real.lt (CollisionResult.distance_lower_bound r)
          (CollisionResult.distance_lower_bound (run_lower_bounds r cs)) = false.
Proof.
  destruct (run_lower_bounds_decreases cs r) as [H|H].
  - rewrite H. apply ltb_irrefl.
  - apply ltb_asym, H.
Qed.

Lemma run_lower_bounds_app r (cs1 cs2 : list FCL_REAL) :
  run_lower_bounds r (cs1 ++ cs2) = run_lower_bounds (run_lower_bounds r cs1) cs2.
Proof. apply fold_left_app. Qed.

(** The final bound is the initial one or a candidate, and neither the
    initial bound nor a candidate is strictly below it. *)
Lemma run_lower_bounds_minimum (cs : list FCL_REAL) : forall r,
  is_minimum (CollisionResult.distance_lower_bound (run_lower_bounds r cs))
             (CollisionResult.distance_lower_bound r :: cs).
Proof.
  induction cs as [|c cs IH]; intros r; cbn.
  - split; [left; reflexivity|]. intros d [<-|[]]. apply ltb_irrefl.
  - fold (run_lower_bounds (CollisionResult.updateDistanceLowerBound r c) cs).
    destruct (IH (CollisionResult.updateDistanceLowerBound r c)) as [Hin Hlow].
    destruct (updateDistanceLowerBound_step r c) as [[Hin1 Hlow1] _].
    split.
    + destruct Hin as [<-|Hin]; [|right; right; exact Hin].
      destruct Hin1 as [H|[H|[]]]; rewrite <- H; [left|right; left]; reflexivity.
    + intros d [<-|[<-|Hd]].
      * apply (run_lower_bounds_not_above (c :: cs) r).
      * pose proof (Hlow1 c (or_intror (or_introl eq_refl))) as H1.
        destruct (run_lower_bounds_decreases cs (CollisionResult.updateDistanceLowerBound r c))
          as [H|H].
        -- rewrite H. exact H1.
        -- match goal with |- ?g = false => destruct g eqn:E; [|reflexivity] end.
           unfold Real.lt in *. rewrite (ltb_trans _ _ _ E H) in H1. discriminate.
      * apply Hlow. right. exact Hd.
Qed.

End LowerBound.

(** C7: every call of [updateDistanceLowerBound] leaves in
    distance_lower_bound a minimum of its previous value and the candidate
    (one of the two, neither of them strictly below it), the bound is either
    kept or strictly lowered, and along any sequence of calls a later bound
    is never above an earlier one; the final bound is a minimum of the
    initial bound and the candidates. *)
Theorem updateDistanceLowerBound_keeps_minimum :
  forall (r : CollisionResult.t) (c : Real.FCL_REAL) (cs1 cs2 : list Real.FCL_REAL),
    Spec.is_minimum
      (CollisionResult.distance_lower_bound (CollisionResult.updateDistanceLowerBound r c))
      [CollisionResult.distance_lower_bound r; c] /\
    (CollisionResult.distance_lower_bound (CollisionResult.updateDistanceLowerBound r c)
     = CollisionResult.distance_lower_bound r \/
     Real.lt (CollisionResult.distance_lower_bound (CollisionResult.updateDistanceLowerBound r c))
             (CollisionResult.distance_lower_bound r) = true) /\
    Real.lt (CollisionResult.distance_lower_bound (Spec.run_lower_bounds r cs1))
            (CollisionResult.distance_lower_bound (Spec.run_lower_bounds r (cs1 ++ cs2)))
    = false /\
    Spec.is_minimum
      (CollisionResult.distance_lower_bound (Spec.run_lower_bounds r cs1))
      (CollisionResult.distance_lower_bound r :: cs1).
Proof.
  intros r c cs1 cs2.
  destruct (updateDistanceLowerBound_step r c) as [H1 H2].
  repeat split; try apply H1; try exact H2.
  - rewrite run_lower_bounds_app. apply run_lower_bounds_not_above.
  - apply run_lower_bounds_minimum.
  - apply run_lower_bounds_minimum.
Qed.

(** ** clear() *)

(** The largest finite double is not +infinity. *)
Lemma numeric_limits_max_finite :
  Real.lt Real.numeric_limits_max infinity = true /\
  Real.eq Real.numeric_limits_max infinity = false.
Proof. split; vm_compute; reflexivity. Qed.

(** C6 (amended): whatever the prior state, [CollisionResult::clear()]
    leaves numContacts() = 0, distance_lower_bound at the largest finite
    double (the construction-time default, which is below +infinity) and the
    timings at their default; [DistanceResult::clear()] leaves min_distance
    at the largest finite double and o1, o2, b1, b2, nearest_points and
    normal as the constructor sets them; both are idempotent. *)
Theorem clear_restores_defaults :
  forall (r : CollisionResult.t) (np : Vec3f.t * Vec3f.t)
         (D : Type) (d : DistanceResult.t D) (u : D),
    (CollisionResult.numContacts (CollisionResult.clear r) = 0 /\
     CollisionResult.contacts (CollisionResult.clear r)
     = CollisionResult.contacts (CollisionResult.default np) /\
     CollisionResult.distance_lower_bound (CollisionResult.clear r)
     = Real.numeric_limits_max /\
     CollisionResult.distance_lower_bound (CollisionResult.clear r)
     = CollisionResult.distance_lower_bound (CollisionResult.default np) /\
     QueryResult.timings (CollisionResult.base (CollisionResult.clear r))
     = QueryResult.timings (CollisionResult.base (CollisionResult.default np)) /\
     CollisionResult.clear (CollisionResult.clear r) = CollisionResult.clear r) /\
    (DistanceResult.min_distance (DistanceResult.clear d) = Real.numeric_limits_max /\
     Spec.holds_args (DistanceResult.clear d)
       (DistanceResult.mkargs
          (DistanceResult.min_distance (DistanceResult.default u))
          (DistanceResult.o1 (DistanceResult.default u))
          (DistanceResult.o2 (DistanceResult.default u))
          (DistanceResult.b1 (DistanceResult.default u))
          (DistanceResult.b2 (DistanceResult.default u))
          (fst (DistanceResult.nearest_points (DistanceResult.default u)))
          (snd (DistanceResult.nearest_points (DistanceResult.default u)))
          (DistanceResult.normal (DistanceResult.default u))) /\
     QueryResult.timings (DistanceResult.base (DistanceResult.clear d))
     = QueryResult.timings (DistanceResult.base (DistanceResult.default u)) /\
     DistanceResult.clear (DistanceResult.clear d) = DistanceResult.clear d) /\
    Real.lt Real.numeric_limits_max infinity = true.
Proof.
  intros r np D d u. split; [|split].
  - repeat split.
  - repeat split.
  - apply numeric_limits_max_finite.
Qed.

(** C6, as stated, fails: after [clear()] the bound and the minimal distance
    are the largest finite double, which is strictly below +infinity and
    does not compare equal to it. *)
Lemma clear_bound_is_not_infinity :
  Real.eq (CollisionResult.distance_lower_bound
             (CollisionResult.clear
                (Examples.collided [Examples.contact 0 0])))
          infinity = false /\
  Real.lt (CollisionResult.distance_lower_bound
             (CollisionResult.clear
                (Examples.collided [Examples.contact 0 0])))
          infinity = true /\
  Real.eq (DistanceResult.min_distance
             (DistanceResult.clear (DistanceResult.construct tt 1%float)))
          infinity = false.
Proof. repeat split; vm_compute; reflexivity. Qed.

(** C10: [clear()] of a CollisionResult and of a DistanceResult leaves the
    inherited cached_gjk_guess and cached_support_func_guess as they were. *)
Theorem clear_keeps_cached_guess :
  forall (r : CollisionResult.t) (D : Type) (d : DistanceResult.t D),
    QueryResult.cached_gjk_guess (CollisionResult.base (CollisionResult.clear r))
    = QueryResult.cached_gjk_guess (CollisionResult.base r) /\
    QueryResult.cached_support_func_guess (CollisionResult.base (CollisionResult.clear r))
    = QueryResult.cached_support_func_guess (CollisionResult.base r) /\
    QueryResult.cached_gjk_guess (DistanceResult.base (DistanceResult.clear d))
    = QueryResult.cached_gjk_guess (DistanceResult.base d) /\
    QueryResult.cached_support_func_guess (DistanceResult.base (DistanceResult.clear d))
    = QueryResult.cached_support_func_guess (DistanceResult.base d).
Proof. intros r D d. repeat split. Qed.

(** ** QueryRequest::updateGuess *)

(** C9 (amended): [updateGuess(result)] copies the result's
    cached_gjk_guess and cached_support_func_guess into the request when
    gjk_initial_guess is CachedGuess or the deprecated flag
    enable_cached_gjk_guess is set, and leaves the request as it was when
    neither holds; no other field of the request changes. *)
Theorem updateGuess_copies_when_selected :
  forall (req : QueryRequest.t) (result : QueryResult.t),
    (Spec.selects_cached_guess req = true ->
     QueryRequest.cached_gjk_guess (QueryRequest.updateGuess req result)
     = QueryResult.cached_gjk_guess result /\
     QueryRequest.cached_support_func_guess (QueryRequest.updateGuess req result)
     = QueryResult.cached_support_func_guess result) /\
    (Spec.selects_cached_guess req = false ->
     QueryRequest.updateGuess req result = req) /\
    QueryRequest.updateGuess req result
    = QueryRequest.assign_guess req
        (QueryRequest.cached_gjk_guess (QueryRequest.updateGuess req result))
        (QueryRequest.cached_support_func_guess (QueryRequest.updateGuess req result)).
Proof.
  intros [g e v cc ct tol it cg cs et th] result.
  unfold Spec.selects_cached_guess, QueryRequest.updateGuess. cbn.
  destruct g, e; cbn; repeat split; intros; try discriminate; reflexivity.
Qed.

Lemma updateGuess_copies_when_selected_witness :
  QueryRequest.cached_gjk_guess
    (QueryRequest.updateGuess (Examples.request CachedGuess false) Examples.solved)
  = QueryResult.cached_gjk_guess Examples.solved /\
  QueryRequest.updateGuess (Examples.request DefaultGuess false) Examples.solved
  = Examples.request DefaultGuess false.
Proof.
  split.
  - apply (proj1 (updateGuess_copies_when_selected
                    (Examples.request CachedGuess false) Examples.solved)).
    reflexivity.
  - apply (proj1 (proj2 (updateGuess_copies_when_selected
                           (Examples.request DefaultGuess false) Examples.solved))).
    reflexivity.
Defined.

(** C9, as stated, fails: a request whose mode gjk_initial_guess is
    DefaultGuess but whose deprecated flag is set has both guesses
    overwritten. *)
Lemma updateGuess_deprecated_flag_copies :
  QueryRequest.gjk_initial_guess (Examples.request DefaultGuess true)
  = DefaultGuess /\
  QueryRequest.cached_gjk_guess
    (QueryRequest.updateGuess (Examples.request DefaultGuess true) Examples.solved)
  = Vec3f.make 0%float 1%float 0%float /\
  QueryRequest.cached_support_func_guess
    (QueryRequest.updateGuess (Examples.request DefaultGuess true) Examples.solved)
  = (3%Z, 4%Z) /\
  Vec3f.eqb
    (QueryRequest.cached_gjk_guess
       (QueryRequest.updateGuess (Examples.request DefaultGuess true) Examples.solved))
    (QueryRequest.cached_gjk_guess (Examples.request DefaultGuess true))
  = false.
Proof. repeat split; vm_compute; reflexivity. Qed.

(** ** CollisionResult::getContact *)

Lemma nth_error_nth_default {A} (l : list A) (i : nat) (d : A) :
  i < length l -> nth_error l i = Some (nth i l d).
Proof. intros H. apply nth_error_nth'. exact H. Qed.

Lemma nth_error_last_default {A} (l : list A) (d : A) :
  l <> [] -> nth_error l (length l - 1) = Some (last l d).
Proof.
  intros H. destruct (exists_last H) as (l' & x & ->).
  rewrite last_last, length_app, nth_error_app2; cbn; [|lia].
  replace (length l' + 1 - 1 - length l') with 0 by lia. reflexivity.
Qed.

(** C5: with no contact stored, [getContact(i)] throws invalid_argument for
    every [i]; with N >= 1 contacts it returns contact [i] when i < N and
    contact N-1 when i >= N. *)
Theorem getContact_clamps_to_last :
  forall (r : CollisionResult.t) (i : nat),
    (CollisionResult.numContacts r = 0 ->
     CollisionResult.getContact r i = Throw_invalid_argument) /\
    (1 <= CollisionResult.numContacts r ->
     i < CollisionResult.numContacts r ->
     exists c, nth_error (CollisionResult.contacts r) i = Some c /\
               CollisionResult.getContact r i = Return c) /\
    (1 <= CollisionResult.numContacts r ->
     CollisionResult.numContacts r <= i ->
     exists c, nth_error (CollisionResult.contacts r)
                         (CollisionResult.numContacts r - 1) = Some c /\
               CollisionResult.getContact r i = Return c).
Proof.
  intros r i. unfold CollisionResult.numContacts, CollisionResult.getContact.
  destruct (CollisionResult.contacts r) as [|c0 cs] eqn:E.
  - repeat split; cbn; intros; try lia; reflexivity.
  - split; [cbn; discriminate|]. split; intros _ Hi.
    + exists (nth i (c0 :: cs) c0). split.
      * apply nth_error_nth_default, Hi.
      * apply Nat.ltb_lt in Hi. rewrite Hi. reflexivity.
    + exists (last (c0 :: cs) c0). split.
      * apply nth_error_last_default. discriminate.
      * apply Nat.ltb_ge in Hi. rewrite Hi. reflexivity.
Qed.

Lemma getContact_clamps_to_last_witness :
  CollisionResult.getContact (Examples.collided []) 0 = Throw_invalid_argument /\
  (exists c,
      nth_error (CollisionResult.contacts
                   (Examples.collided [Examples.contact 1 3; Examples.contact 1 9;
                                       Examples.contact 2 5])) 1 = Some c /\
      CollisionResult.getContact
        (Examples.collided [Examples.contact 1 3; Examples.contact 1 9;
                            Examples.contact 2 5]) 1 = Return c) /\
  (exists c,
      nth_error (CollisionResult.contacts
                   (Examples.collided [Examples.contact 1 3; Examples.contact 1 9;
                                       Examples.contact 2 5])) (3 - 1) = Some c /\
      CollisionResult.getContact
        (Examples.collided [Examples.contact 1 3; Examples.contact 1 9;
                            Examples.contact 2 5]) 7 = Return c).
Proof.
  split; [|split].
  - apply (proj1 (getContact_clamps_to_last (Examples.collided []) 0)).
    reflexivity.
  - apply (proj1 (proj2 (getContact_clamps_to_last
                           (Examples.collided [Examples.contact 1 3; Examples.contact 1 9;
                                               Examples.contact 2 5]) 1)));
      cbn; lia.
  - apply (proj2 (proj2 (getContact_clamps_to_last
                           (Examples.collided [Examples.contact 1 3; Examples.contact 1 9;
                                               Examples.contact 2 5]) 7)));
      cbn; lia.
Defined.

(** ** Contact::operator== *)

Section ContactEquality.
Import Real Spec.

Lemma Real_eq_same_double (a b : FCL_REAL) :
  Real.eq a b = true <-> same_double a b.
Proof. unfold Real.eq, same_double. apply eqb_true_iff. Qed.

Lemma Vec3f_eqb_same_vector (a b : Vec3f.t) :
  Vec3f.eqb a b = true <-> same_vector a b.
Proof.
  unfold Vec3f.eqb, same_vector.
  rewrite !andb_true_iff, !Real_eq_same_double. tauto.
Qed.

End ContactEquality.

(** C4 (amended): two contacts compare equal exactly when o1, o2, b1 and
    b2 are identical and the coefficients of normal and of pos and the
    penetration depth compare equal as doubles (the same double and not NaN,
    or two zeros); the nearest-point pair takes no part in the
    comparison. *)
Theorem Contact_eqb_compares_seven_fields :
  forall (c other : Contact.t),
    (Contact.eqb c other = true <->
     Contact.o1 c = Contact.o1 other /\
     Contact.o2 c = Contact.o2 other /\
     Contact.b1 c = Contact.b1 other /\
     Contact.b2 c = Contact.b2 other /\
     Spec.same_vector (Contact.normal c) (Contact.normal other) /\
     Spec.same_vector (Contact.pos c) (Contact.pos other) /\
     Spec.same_double (Contact.penetration_depth c)
                      (Contact.penetration_depth other)) /\
    (forall np np',
        Contact.eqb (Spec.with_nearest_points c np)
                    (Spec.with_nearest_points other np')
        = Contact.eqb c other).
Proof.
  intros c other. split; [|reflexivity].
  unfold Contact.eqb.
  rewrite !andb_true_iff, !N.eqb_eq, !Z.eqb_eq, !Vec3f_eqb_same_vector,
    Real_eq_same_double.
  tauto.
Qed.

(** C4, as stated, fails: two contacts that differ in their nearest points
    compare equal, and a contact whose penetration depth is NaN does not
    compare equal to itself. *)
Lemma Contact_eqb_ignores_nearest_points :
  (Contact.eqb
     (Spec.with_nearest_points (Examples.contact 3 4)
        (Vec3f.Constant 1%float, Vec3f.Constant 2%float))
     (Examples.contact 3 4) = true /\
   Vec3f.eqb
     (fst (Contact.nearest_points
             (Spec.with_nearest_points (Examples.contact 3 4)
                (Vec3f.Constant 1%float, Vec3f.Constant 2%float))))
     (fst (Contact.nearest_points (Examples.contact 3 4))) = false) /\
  Contact.eqb
    (Contact.make 1%N 2%N 3%Z 4%Z Vec3f.Zero (Vec3f.Zero, Vec3f.Zero)
                  Vec3f.Zero Real.quiet_NaN)
    (Contact.make 1%N 2%N 3%Z 4%Z Vec3f.Zero (Vec3f.Zero, Vec3f.Zero)
                  Vec3f.Zero Real.quiet_NaN) = false.
Proof. repeat split; vm_compute; reflexivity. Qed.

(** ** std::set and std::vector *)

Section Containers.
Import Convex Spec.

Lemma StdSet_In_insert (x : nat) (s : StdSet.t) (y : nat) :
  In y (StdSet.insert x s) <-> y = x \/ In y s.
Proof.
  induction s as [|z s IH]; cbn [StdSet.insert].
  - cbn. intuition auto.
  - destruct (x <? z) eqn:E1; [|destruct (x =? z) eqn:E2].
    + cbn [In]. intuition auto.
    + apply Nat.eqb_eq in E2. subst. cbn [In]. intuition auto.
    + cbn [In]. rewrite IH. intuition auto.
Qed.

Lemma StdSet_count_zero (x : nat) (s : StdSet.t) :
  StdSet.count x s = 0 <-> ~ In x s.
Proof.
  unfold StdSet.count. destruct (existsb (Nat.eqb x) s) eqn:E.
  - apply existsb_exists in E as (y & Hy & Hxy). apply Nat.eqb_eq in Hxy. subst.
    split; [discriminate|]. intros H. contradiction.
  - split; [|reflexivity]. intros _ Hin.
    assert (existsb (Nat.eqb x) s = true) as H; [|congruence].
    apply existsb_exists. exists x. split; [exact Hin|apply Nat.eqb_refl].
Qed.

Lemma StdSet_insert_sorted (x : nat) (s : StdSet.t) :
  StronglySorted lt s -> StronglySorted lt (StdSet.insert x s).
Proof.
  induction s as [|z s IH]; cbn [StdSet.insert]; intros Hs.
  - repeat constructor.
  - apply StronglySorted_inv in Hs as [Hs Hz].
    destruct (x <? z) eqn:E1.
    + apply Nat.ltb_lt in E1. constructor; [constructor; assumption|].
      constructor; [exact E1|]. eapply Forall_impl; [|exact Hz]. cbn. lia.
    + destruct (x =? z) eqn:E2; [constructor; assumption|].
      apply Nat.ltb_ge in E1. apply Nat.eqb_neq in E2.
      constructor; [apply IH, Hs|].
      apply Forall_forall. intros y Hy. apply StdSet_In_insert in Hy as [->|Hy]; [lia|].
      rewrite Forall_forall in Hz. apply Hz, Hy.
Qed.

Lemma StdSet_insert_new_size (x : nat) (s : StdSet.t) :
  ~ In x s -> StdSet.size (StdSet.insert x s) = S (StdSet.size s).
Proof.
  unfold StdSet.size.
  induction s as [|z s IH]; cbn [StdSet.insert In]; intros H; [reflexivity|].
  destruct (x <? z); [reflexivity|].
  destruct (x =? z) eqn:E2.
  - apply Nat.eqb_eq in E2. subst. exfalso. apply H. left. reflexivity.
  - cbn [length]. rewrite IH; [reflexivity|]. intros Hin. apply H. right. exact Hin.
Qed.

Lemma sorted_NoDup (s : list nat) : StronglySorted lt s -> NoDup s.
Proof.
  induction 1 as [|x s Hs IH Hx]; constructor; [|exact IH].
  intros Hin. rewrite Forall_forall in Hx. specialize (Hx x Hin). lia.
Qed.

Lemma length_vector_set {A} (v : list A) (i : nat) (x : A) :
  length (Convex.vector_set v i x) = length v.
Proof.
  revert i; induction v as [|a v IH]; intros [|i]; cbn; auto.
Qed.

Lemma nth_error_vector_set {A} (v : list A) (i j : nat) (x : A) :
  i < length v ->
  nth_error (Convex.vector_set v i x) j =
  if (j =? i)%nat then Some x else nth_error v j.
Proof.
  revert i j; induction v as [|a v IH]; intros [|i] [|j]; cbn; intros H;
    try lia; auto.
  apply IH. lia.
Qed.

Lemma total_size_vector_set (sets : list StdSet.t) (i : nat) (s s' : StdSet.t) :
  nth_error sets i = Some s ->
  total_size (Convex.vector_set sets i s') + StdSet.size s
  = total_size sets + StdSet.size s'.
Proof.
  unfold total_size, list_sum.
  revert i; induction sets as [|a sets IH]; intros [|i];
    cbn [Convex.vector_set map list_sum fold_right nth_error]; try discriminate.
  - intros [= ->]. lia.
  - intros H. specialize (IH i H). lia.
Qed.

End Containers.

(** ** The first loop of fillNeighbors *)

Section BuildSets.
Import Convex Spec.

Lemma for_each_spec {S X} (body : S -> X -> option S) (P : X -> Prop)
      (I : list X -> S -> Prop) :
  (forall done x st, I done st ->
     (P x -> exists st', body st x = Some st' /\ I (done ++ [x]) st') /\
     (forall st', body st x = Some st' -> P x)) ->
  forall xs done st, I done st ->
    (Forall P xs -> exists st', for_each body xs st = Some st' /\ I (done ++ xs) st') /\
    (forall st', for_each body xs st = Some st' -> Forall P xs).
Proof.
  intros Hbody. induction xs as [|x xs IH]; intros done st HI.
  - split; [|constructor]. intros _. exists st. rewrite app_nil_r. auto.
  - destruct (Hbody done x st HI) as [Hfwd Hbwd]. cbn [for_each]. split.
    + intros HP. inversion HP as [|? ? Hx Hxs]; subst.
      destruct (Hfwd Hx) as (st1 & E1 & I1). rewrite E1.
      destruct (IH (done ++ [x]) st1 I1) as [IHf _].
      destruct (IHf Hxs) as (st' & E' & I'). exists st'.
      rewrite <- app_assoc in I'. auto.
    + intros st' E. destruct (body st x) as [st1|] eqn:E1; [|discriminate].
      pose proof (Hbwd st1 eq_refl) as Hx.
      destruct (Hfwd Hx) as (st1' & E1' & I1). injection E1' as <-.
      constructor; [exact Hx|].
      destruct (IH (done ++ [x]) st1 I1) as [_ IHb]. apply (IHb st'), E.
Qed.

Lemma registered_ext n R R' k k' st :
  (forall v u, R v u <-> R' v u) -> k <= k' ->
  registered n R k st -> registered n R' k' st.
Proof.
  intros HR Hk (Hlen & Hsets & Htot & Hc). repeat split; auto; try lia.
  - apply (Hsets v s H).
  - intros Hu. apply HR. apply (Hsets v s H), Hu.
  - intros Hu. apply (Hsets v s H). apply HR, Hu.
Qed.

Lemma register_spec n R k st pj p :
  registered n R k st ->
  (pj < n -> exists st', register st pj p = Some st' /\
                         registered n (extend R pj p) (S k) st') /\
  (forall st', register st pj p = Some st' -> pj < n).
Proof.
  destruct st as [nn c]. intros (Hlen & Hsets & Htot & Hc). cbn [fst snd] in *.
  unfold register. destruct (nth_error nn pj) as [s|] eqn:E.
  - assert (Hpj : pj < n).
    { rewrite <- Hlen. apply nth_error_Some. congruence. }
    split; [intros _|auto].
    destruct (Hsets pj s E) as [Hsorted Hin].
    destruct (StdSet.count p s =? 0) eqn:Ec.
    + apply Nat.eqb_eq, StdSet_count_zero in Ec.
      eexists. split; [reflexivity|]. unfold registered. cbn [fst snd].
      pose proof (total_size_vector_set nn pj s (StdSet.insert p s) E) as Ht.
      rewrite (StdSet_insert_new_size p s Ec) in Ht.
      split; [|split; [|split]].
      * rewrite length_vector_set. exact Hlen.
      * intros v s0 H. rewrite nth_error_vector_set in H by lia.
        destruct (v =? pj) eqn:Ev.
        -- apply Nat.eqb_eq in Ev. subst v. injection H as <-.
           split; [apply StdSet_insert_sorted, Hsorted|].
           intros u. rewrite StdSet_In_insert, Hin. unfold extend. intuition auto.
        -- apply Nat.eqb_neq in Ev. destruct (Hsets v s0 H) as [Hs0 Hin0].
           split; [exact Hs0|]. intros u. rewrite Hin0. unfold extend. intuition auto.
      * lia.
      * unfold uint_incr. rewrite Hc.
        replace (total_size (vector_set nn pj (StdSet.insert p s))) with (total_size nn + 1) by lia.
        rewrite Nat2N.inj_add. change (N.of_nat 1) with 1%N.
        apply N.Div0.add_mod_idemp_l.
    + apply Nat.eqb_neq in Ec.
      assert (Hp : In p s).
      { destruct (in_dec Nat.eq_dec p s) as [Hp|Hp]; [exact Hp|].
        apply StdSet_count_zero in Hp. contradiction. }
      eexists. split; [reflexivity|]. unfold registered. cbn [fst snd].
      split; [exact Hlen|split; [|split; [lia|exact Hc]]].
      intros v s0 H. destruct (Hsets v s0 H) as [Hs0 Hin0].
      split; [exact Hs0|]. intros u. rewrite Hin0. unfold extend.
      split; [auto|]. intros [Hu|[-> ->]]; [exact Hu|].
      rewrite E in H. injection H as <-. apply Hin, Hp.
  - split; [|discriminate]. intros Hpj. apply nth_error_None in E. lia.
Qed.

Lemma visit_position_spec n R k st f j :
  registered n R k st ->
  (nth j f 0 < n ->
   exists st', visit_position f st j = Some st' /\
               registered n (fun v u => R v u \/ position_pairs f j v u)
                          (S (S k)) st') /\
  (forall st', visit_position f st j = Some st' -> nth j f 0 < n).
Proof.
  intros Hst. unfold visit_position.
  destruct (register_spec n R k st (nth j f 0) (nth (prev_pos (length f) j) f 0) Hst)
    as [Hfwd Hbwd].
  split.
  - intros Hj. destruct (Hfwd Hj) as (st1 & E1 & H1). rewrite E1.
    destruct (register_spec n _ (S k) st1 (nth j f 0)
                (nth (next_pos (length f) j) f 0) H1) as [Hfwd2 _].
    destruct (Hfwd2 Hj) as (st2 & E2 & H2). exists st2. split; [exact E2|].
    revert H2; apply registered_ext; [|apply Nat.le_refl].
    intros v u. unfold extend, position_pairs. intuition auto.
  - intros st'. destruct (register st _ _) as [st1|] eqn:E1; [|discriminate].
    intros _. apply (Hbwd st1), eq_refl.
Qed.

Lemma prev_pos_mod (n j : nat) : j < n -> prev_pos n j = (j + n - 1) mod n.
Proof.
  intros H. unfold prev_pos. destruct (j =? 0) eqn:E.
  - apply Nat.eqb_eq in E. subst. cbn [Nat.add]. rewrite Nat.mod_small; lia.
  - apply Nat.eqb_neq in E.
    replace (j + n - 1) with ((j - 1) + 1 * n) by lia.
    rewrite Nat.Div0.mod_add, Nat.mod_small; lia.
Qed.

Lemma next_pos_mod (n j : nat) : j < n -> next_pos n j = (j + 1) mod n.
Proof.
  intros H. unfold next_pos. destruct (j =? n - 1) eqn:E.
  - apply Nat.eqb_eq in E. replace (j + 1) with n by lia.
    rewrite Nat.Div0.mod_same. reflexivity.
  - apply Nat.eqb_neq in E. rewrite Nat.mod_small; lia.
Qed.

Lemma position_pairs_face_neighbor (f : PolygonT) (v u : nat) :
  (exists j, In j (seq 0 (length f)) /\ position_pairs f j v u) <->
  face_neighbor f v u.
Proof.
  unfold position_pairs, face_neighbor. split.
  - intros (j & Hj & -> & Hu). apply in_seq in Hj. exists j.
    rewrite <- prev_pos_mod, <- next_pos_mod by lia.
    intuition auto with arith.
  - intros (j & Hj & <- & Hu). exists j.
    rewrite <- prev_pos_mod, <- next_pos_mod in Hu by lia.
    split; [apply in_seq; lia|]. intuition auto.
Qed.

Lemma positions_valid (n : nat) (f : PolygonT) :
  Forall (fun j => nth j f 0 < n) (seq 0 (length f)) <->
  (forall p, In p f -> p < n).
Proof.
  rewrite Forall_forall. split.
  - intros H p Hp. destruct (In_nth f p 0 Hp) as (j & Hj & <-).
    apply H, in_seq. lia.
  - intros H j Hj. apply in_seq in Hj. apply H, nth_In. lia.
Qed.

Lemma visit_polygon_spec n R k st f :
  registered n R k st ->
  ((forall p, In p f -> p < n) ->
   exists st', visit_polygon st f = Some st' /\
               registered n (fun v u => R v u \/ face_neighbor f v u)
                          (k + 2 * length f) st') /\
  (forall st', visit_polygon st f = Some st' -> forall p, In p f -> p < n).
Proof.
  intros Hst. unfold visit_polygon.
  destruct (for_each_spec (visit_position f) (fun j => nth j f 0 < n)
              (fun done st =>
                 registered n (fun v u => R v u \/
                                 exists j, In j done /\ position_pairs f j v u)
                            (k + 2 * length done) st))
    with (xs := seq 0 (length f)) (done := @nil nat) (st := st) as [Hfwd Hbwd].
  - intros done j st0 H0.
    destruct (visit_position_spec n _ _ st0 f j H0) as [Hf Hb].
    split; [|exact Hb].
    intros Hj. destruct (Hf Hj) as (st' & E & H'). exists st'. split; [exact E|].
    revert H'; apply registered_ext.
    + intros v u. split.
      * intros [[Hr|(j' & Hj' & Hp)]|Hp]; auto.
        -- right. exists j'. split; [apply in_or_app; left; exact Hj'|exact Hp].
        -- right. exists j. split; [apply in_or_app; right; left; reflexivity|exact Hp].
      * intros [Hr|(j' & Hj' & Hp)]; auto.
        apply in_app_or in Hj' as [Hj'|[<-|[]]]; eauto.
    + rewrite length_app. cbn. lia.
  - revert Hst; apply registered_ext.
    + intros v u. split; [auto|]. intros [Hr|(j & [] & _)]. exact Hr.
    + cbn. lia.
  - split.
    + intros Hv. destruct (Hfwd (proj2 (positions_valid n f) Hv)) as (st' & E & H').
      exists st'. split; [exact E|]. cbn [app] in H'.
      revert H'; apply registered_ext.
      * intros v u. rewrite position_pairs_face_neighbor. reflexivity.
      * rewrite length_seq. lia.
    + intros st' E. apply positions_valid, (Hbwd st' E).
Qed.

Lemma adjacent_snoc (done : list PolygonT) (f : PolygonT) (v u : nat) :
  adjacent (done ++ [f]) v u <-> adjacent done v u \/ face_neighbor f v u.
Proof.
  unfold adjacent. split.
  - intros (g & Hg & H). apply in_app_or in Hg as [Hg|[<-|[]]]; eauto.
  - intros [(g & Hg & H)|H].
    + exists g. split; [apply in_or_app; left; exact Hg|exact H].
    + exists f. split; [apply in_or_app; right; left; reflexivity|exact H].
Qed.

Lemma corners_snoc (done : list PolygonT) (f : PolygonT) :
  corners (done ++ [f]) = corners done + length f.
Proof.
  unfold corners, PolygonT. rewrite map_app, list_sum_app. simpl. lia.
Qed.

Lemma build_sets_spec (n : nat) (polygons : list PolygonT) :
  (valid_polygons n polygons ->
   exists st, build_sets n polygons = Some st /\
              registered n (adjacent polygons) (2 * corners polygons) st) /\
  (forall st, build_sets n polygons = Some st -> valid_polygons n polygons).
Proof.
  unfold build_sets.
  destruct (for_each_spec visit_polygon (fun f => forall p, In p f -> p < n)
              (fun done st => registered n (adjacent done) (2 * corners done) st))
    with (xs := polygons) (done := @nil PolygonT) (st := (repeat (@nil nat) n, 0%N))
    as [Hfwd Hbwd].
  - intros done f st0 H0.
    destruct (visit_polygon_spec n _ _ st0 f H0) as [Hf Hb].
    split; [|exact Hb].
    intros Hv. destruct (Hf Hv) as (st' & E & H'). exists st'. split; [exact E|].
    revert H'; apply registered_ext.
    + intros v u. rewrite adjacent_snoc. reflexivity.
    + rewrite corners_snoc. lia.
  - unfold registered. cbn [fst snd].
    assert (Ht : total_size (repeat (@nil nat) n) = 0).
    { unfold total_size. induction n; cbn; auto. }
    split; [apply repeat_length|split; [|split; [lia|rewrite Ht; reflexivity]]].
    intros v s H. apply nth_error_In, repeat_spec in H. subst s.
    split; [constructor|]. intros u. split; [intros []|].
    intros (f & [] & _).
  - split.
    + intros Hv. apply Hfwd. apply Forall_forall. exact Hv.
    + intros st E. pose proof (Hbwd st E) as H. rewrite Forall_forall in H. exact H.
Qed.

End BuildSets.

(** ** The second loop of fillNeighbors *)

Section Flatten.
Import Convex Spec.

Lemma length_entries sets : forall p, length (entries sets p) = length sets.
Proof. induction sets as [|s sets IH]; intros p; cbn; auto. Qed.

Lemma flatten_returns sets c : forall p tbl buf t,
  flatten sets c p tbl buf = Return t ->
  t = mkTable (tbl ++ entries sets p) (buf ++ concat sets) /\
  Forall (fun s => StdSet.size s < UCHAR_MAX) sets.
Proof.
  induction sets as [|s sets IH]; intros p tbl buf t; cbn [flatten entries concat].
  - intros [= <-]. rewrite !app_nil_r. auto.
  - destruct (UCHAR_MAX <=? StdSet.size s) eqn:E1; [discriminate|].
    destruct (c <? N.of_nat (p + StdSet.size s))%N; [discriminate|].
    intros H. apply IH in H as [-> HF]. apply Nat.leb_gt in E1.
    rewrite <- !app_assoc. cbn [app]. auto.
Qed.

Lemma flatten_fits sets c : forall p tbl buf,
  (N.of_nat (p + total_size sets) <= c)%N ->
  (Forall (fun s => StdSet.size s < UCHAR_MAX) sets ->
   flatten sets c p tbl buf
   = Return (mkTable (tbl ++ entries sets p) (buf ++ concat sets))) /\
  (Exists (fun s => UCHAR_MAX <= StdSet.size s) sets ->
   flatten sets c p tbl buf = Throw_logic_error).
Proof.
  induction sets as [|s sets IH]; intros p tbl buf Hc; cbn [flatten entries concat].
  - split; [intros _; rewrite !app_nil_r; reflexivity|]. intros H. inversion H.
  - unfold total_size in Hc. cbn [map list_sum fold_right] in Hc.
    fold (list_sum (map StdSet.size sets)) in Hc. fold (total_size sets) in Hc.
    destruct (UCHAR_MAX <=? StdSet.size s) eqn:E1.
    + apply Nat.leb_le in E1. split; [|reflexivity].
      intros H. apply Forall_inv in H. lia.
    + apply Nat.leb_gt in E1.
      assert (E2 : (c <? N.of_nat (p + StdSet.size s))%N = false) by (apply N.ltb_ge; lia).
      rewrite E2.
      destruct (IH (p + StdSet.size s) (tbl ++ [mkNeighbors (N.of_nat (StdSet.size s) mod 256) p])
                   (buf ++ s)) as [IH1 IH2]; [lia|].
      split.
      * intros H. apply Forall_inv_tail in H. rewrite (IH1 H), <- !app_assoc. reflexivity.
      * intros H. apply Exists_cons in H as [H|H]; [lia|]. apply IH2, H.
Qed.

Lemma entries_lookup sets : forall p pre post v s,
  length pre = p ->
  Forall (fun s => StdSet.size s < UCHAR_MAX) sets ->
  nth_error sets v = Some s ->
  exists e, nth_error (entries sets p) v = Some e /\
            N.to_nat (count_ e) = length s /\
            firstn (N.to_nat (count_ e)) (skipn (n_ e) (pre ++ concat sets ++ post)) = s.
Proof.
  induction sets as [|s0 sets IH]; intros p pre post [|v] s Hp HF;
    cbn [nth_error entries concat]; try discriminate.
  - intros [= ->]. eexists. split; [reflexivity|]. cbn [count_ n_].
    apply Forall_inv in HF. unfold StdSet.size, UCHAR_MAX in *.
    assert (Hn : N.to_nat (N.of_nat (length s) mod 256) = length s).
    { rewrite N.mod_small by lia. apply Nat2N.id. }
    rewrite Hn. split; [reflexivity|].
    rewrite skipn_app, <- Hp, skipn_all, Nat.sub_diag. cbn [app skipn].
    rewrite <- app_assoc, firstn_app, firstn_all, Nat.sub_diag. cbn [firstn].
    apply app_nil_r.
  - intros Hs. apply Forall_inv_tail in HF.
    destruct (IH (p + StdSet.size s0) (pre ++ s0) post v s) as (e & He & Hcount & Hcells);
      auto.
    { rewrite length_app. unfold StdSet.size. lia. }
    exists e. rewrite <- !app_assoc in Hcells. rewrite <- app_assoc. auto.
Qed.

End Flatten.

(** ** fillNeighbors *)

Section FillNeighbors.
Import Convex Spec.

Lemma adjacent_valid n polygons v u :
  valid_polygons n polygons -> adjacent polygons v u -> v < n /\ u < n.
Proof.
  intros Hv (f & Hf & j & Hj & <- & Hu).
  assert (Hlt : forall i, i < length f -> nth i f 0 < n).
  { intros i Hi. apply (Hv f Hf), nth_In, Hi. }
  split; [apply Hlt, Hj|].
  destruct Hu as [<-|<-]; apply Hlt, Nat.mod_upper_bound; lia.
Qed.

Lemma prev_next_pos (n j : nat) :
  j < n -> next_pos n (prev_pos n j) = j /\ prev_pos n (next_pos n j) = j /\
           prev_pos n j < n /\ next_pos n j < n.
Proof.
  intros H. unfold next_pos, prev_pos.
  destruct (j =? 0) eqn:E1; destruct (j =? n - 1) eqn:E2;
    repeat match goal with
           | H : (_ =? _) = true |- _ => apply Nat.eqb_eq in H
           | H : (_ =? _) = false |- _ => apply Nat.eqb_neq in H
           | |- context [?a =? ?b] => destruct (Nat.eqb_spec a b)
           end; lia.
Qed.

Lemma face_neighbor_sym (f : PolygonT) (v u : nat) :
  face_neighbor f v u -> face_neighbor f u v.
Proof.
  intros (j & Hj & <- & Hu).
  destruct (prev_next_pos (length f) j Hj) as (Hnp & Hpn & Hp & Hn).
  rewrite <- prev_pos_mod, <- next_pos_mod in Hu by exact Hj.
  destruct Hu as [<-|<-].
  - exists (prev_pos (length f) j). split; [exact Hp|]. split; [reflexivity|].
    right. rewrite <- next_pos_mod, Hnp by exact Hp. reflexivity.
  - exists (next_pos (length f) j). split; [exact Hn|]. split; [reflexivity|].
    left. rewrite <- prev_pos_mod, Hpn by exact Hn. reflexivity.
Qed.

Lemma adjacent_sym polygons v u : adjacent polygons v u -> adjacent polygons u v.
Proof.
  intros (f & Hf & H). exists f. split; [exact Hf|apply face_neighbor_sym, H].
Qed.

(** Counting the distinct neighbours of [v] with a duplicate-free list [s]
    of all of them. *)
Lemma at_most_neighbors_length polygons v s k :
  NoDup s -> (forall u, In u s <-> adjacent polygons v u) ->
  (at_most_neighbors polygons v k <-> length s <= k) /\
  (more_neighbors_than polygons v k <-> k < length s).
Proof.
  intros Hnd Hs. split; split.
  - intros H. apply (H s Hnd). intros u. apply Hs.
  - intros Hk l Hl Hin. etransitivity; [|exact Hk].
    apply NoDup_incl_length; [exact Hl|]. intros u Hu. apply Hs, Hin, Hu.
  - intros (l & Hl & Hin & Hk). eapply Nat.lt_le_trans; [exact Hk|].
    apply NoDup_incl_length; [exact Hl|]. intros u Hu. apply Hs, Hin, Hu.
  - intros Hk. exists s. split; [exact Hnd|]. split; [intros u; apply Hs|exact Hk].
Qed.

(** What the first loop has computed when it ends. *)
Lemma build_sets_sets n polygons nn c :
  build_sets n polygons = Some (nn, c) ->
  valid_polygons n polygons /\ length nn = n /\
  (forall v s, nth_error nn v = Some s ->
               NoDup s /\ forall u, In u s <-> adjacent polygons v u) /\
  total_size nn <= 2 * corners polygons /\
  c = (N.of_nat (total_size nn) mod UINT_MOD)%N.
Proof.
  intros E. destruct (build_sets_spec n polygons) as [Hfwd Hbwd].
  pose proof (Hbwd _ E) as Hv. destruct (Hfwd Hv) as (st & E' & Hlen & Hsets & Htot & Hc).
  rewrite E in E'. injection E' as <-. cbn [fst snd] in *.
  repeat split; auto.
  - apply sorted_NoDup, (Hsets v s H).
  - apply (Hsets v s H).
  - apply (Hsets v s H).
Qed.

(** A successful run stores, for every vertex, its set of neighbours. *)
Lemma fillNeighbors_returns n polygons t :
  fillNeighbors n polygons = Return t ->
  valid_polygons n polygons /\ length (neighbors t) = n /\
  forall v, v < n -> stores_neighbors polygons t v /\
                     length (neighbors_of t v) < UCHAR_MAX.
Proof.
  unfold fillNeighbors. destruct (build_sets n polygons) as [[nn c]|] eqn:E; [|discriminate].
  intros Hf. apply flatten_returns in Hf as [-> HF]. cbn [app] in *.
  destruct (build_sets_sets n polygons nn c E) as (Hv & Hlen & Hsets & _).
  split; [exact Hv|]. split; [cbn; rewrite length_entries; exact Hlen|].
  intros v Hvn.
  destruct (nth_error nn v) as [s|] eqn:Es;
    [|apply nth_error_None in Es; lia].
  destruct (entries_lookup nn 0 [] [] v s eq_refl HF Es) as (e & He & Hcount & Hcells).
  rewrite app_nil_r in Hcells. cbn [app] in Hcells.
  assert (Hn : neighbors_of (mkTable (entries nn 0) (concat nn)) v = s).
  { unfold neighbors_of. cbn [neighbors nneighbors_]. rewrite He. exact Hcells. }
  destruct (Hsets v s Es) as [Hnd Hin].
  unfold stores_neighbors. rewrite Hn. cbn [neighbors].
  split.
  - split; [exact Hnd|]. split; [exact Hin|].
    exists e. split; [exact He|]. split; [exact Hcount|].
    rewrite Hcount. apply (at_most_neighbors_length polygons v s (length s) Hnd Hin).
    apply Nat.le_refl.
  - rewrite Forall_forall in HF. apply (HF s), (nth_error_In _ _ Es).
Qed.

(** With valid indices and a counter that cannot wrap, the run ends
    normally or throws, according to the sizes of the sets. *)
Lemma fillNeighbors_decided n polygons :
  valid_polygons n polygons ->
  (N.of_nat (2 * corners polygons) < UINT_MOD)%N ->
  exists nn c,
    build_sets n polygons = Some (nn, c) /\
    ((Forall (fun s => StdSet.size s < UCHAR_MAX) nn /\
      exists t, fillNeighbors n polygons = Return t) \/
     (Exists (fun s => UCHAR_MAX <= StdSet.size s) nn /\
      fillNeighbors n polygons = Throw_logic_error)).
Proof.
  intros Hv Hbound. destruct (build_sets_spec n polygons) as [Hfwd _].
  destruct (Hfwd Hv) as ([nn c] & E & _).
  destruct (build_sets_sets n polygons nn c E) as (_ & Hlen & Hsets & Htot & Hc).
  exists nn, c. split; [exact E|].
  unfold fillNeighbors. rewrite E.
  assert (Hfit : (N.of_nat (0 + total_size nn) <= c)%N).
  { rewrite Hc, N.mod_small; [cbn; lia|]. lia. }
  destruct (flatten_fits nn c 0 [] [] Hfit) as [Hok Hthrow].
  destruct (Forall_Exists_dec (fun s => StdSet.size s < UCHAR_MAX)
              (fun s => lt_dec (StdSet.size s) UCHAR_MAX) nn) as [HF|HE].
  - left. split; [exact HF|]. eexists. apply Hok, HF.
  - right. assert (HE' : Exists (fun s => UCHAR_MAX <= StdSet.size s) nn).
    { eapply Exists_impl; [|exact HE]. cbn. intros s. lia. }
    split; [exact HE'|apply Hthrow, HE'].
Qed.

Lemma degrees_le_sound n polygons k :
  degrees_le n polygons k = true ->
  forall v, v < n -> at_most_neighbors polygons v k.
Proof.
  unfold degrees_le. destruct (build_sets n polygons) as [[nn c]|] eqn:E; [|discriminate].
  intros H v Hvn. rewrite forallb_forall in H.
  destruct (build_sets_sets n polygons nn c E) as (_ & Hlen & Hsets & _).
  destruct (nth_error nn v) as [s|] eqn:Es; [|apply nth_error_None in Es; lia].
  destruct (Hsets v s Es) as [Hnd Hin].
  apply (at_most_neighbors_length polygons v s k Hnd Hin).
  apply Nat.leb_le, (H s), (nth_error_In _ _ Es).
Qed.

End FillNeighbors.

Section TableFacts.
Import Convex Spec.

Lemma degrees_le_valid n polygons k :
  degrees_le n polygons k = true -> valid_polygons n polygons.
Proof.
  unfold degrees_le. destruct (build_sets n polygons) as [[nn c]|] eqn:E; [|discriminate].
  intros _. apply (build_sets_sets n polygons nn c E).
Qed.

Lemma neighbors_of_outside t v :
  length (neighbors t) <= v -> neighbors_of t v = [].
Proof.
  intros H. unfold neighbors_of. apply nth_error_None in H. rewrite H. reflexivity.
Qed.

End TableFacts.

(** C1 (amended): for polygons whose indices are valid (and with fewer
    than 2^31 corners, so that the unsigned counter cannot wrap),
    [fillNeighbors] succeeds exactly when every vertex accumulates at most
    254 distinct neighbours and throws its "Too many neighbors" error
    exactly when some vertex accumulates more than 254 (255 or more); when it
    succeeds the stored count and cells of every vertex are its whole set of
    distinct neighbours, nothing is truncated. *)
Theorem fillNeighbors_capacity :
  forall (num_points : nat) (polygons : list Convex.PolygonT),
    Spec.valid_polygons num_points polygons ->
    (N.of_nat (2 * Spec.corners polygons) < Convex.UINT_MOD)%N ->
    ((forall v, v < num_points -> Spec.at_most_neighbors polygons v 254) <->
     exists t, Convex.fillNeighbors num_points polygons = Return t) /\
    ((exists v, v < num_points /\ Spec.more_neighbors_than polygons v 254) <->
     Convex.fillNeighbors num_points polygons = Throw_logic_error) /\
    (forall t, Convex.fillNeighbors num_points polygons = Return t ->
               forall v, v < num_points -> Spec.stores_neighbors polygons t v).
Proof.
  intros n polygons Hv Hbound.
  destruct (fillNeighbors_decided n polygons Hv Hbound) as (nn & c & E & Hcase).
  destruct (build_sets_sets n polygons nn c E) as (_ & Hlen & Hsets & _).
  assert (Hcount : forall v s, nth_error nn v = Some s ->
            (Spec.at_most_neighbors polygons v 254 <-> StdSet.size s < Convex.UCHAR_MAX) /\
            (Spec.more_neighbors_than polygons v 254 <-> Convex.UCHAR_MAX <= StdSet.size s)).
  { intros v s Hs. destruct (Hsets v s Hs) as [Hnd Hin].
    destruct (at_most_neighbors_length polygons v s 254 Hnd Hin) as [H1 H2].
    unfold StdSet.size, Convex.UCHAR_MAX. rewrite H1, H2. lia. }
  split; [|split].
  - destruct Hcase as [[HF Ht]|[HE Ht]].
    + split; [intros _; exact Ht|]. intros _ v Hvn.
      destruct (nth_error nn v) as [s|] eqn:Es; [|apply nth_error_None in Es; lia].
      apply (Hcount v s Es). rewrite Forall_forall in HF.
      apply (HF s), (nth_error_In _ _ Es).
    + split; [|intros [t Ht']; congruence].
      intros H. apply Exists_exists in HE as (s & Hs & Hsize).
      apply In_nth_error in Hs as [v Hs].
      assert (Hvn : v < n). { rewrite <- Hlen. apply nth_error_Some. congruence. }
      apply (Hcount v s Hs) in H; [lia|exact Hvn].
  - destruct Hcase as [[HF Ht]|[HE Ht]].
    + split; [|destruct Ht as [t Ht]; congruence].
      intros (v & Hvn & Hmore).
      destruct (nth_error nn v) as [s|] eqn:Es; [|apply nth_error_None in Es; lia].
      apply (Hcount v s Es) in Hmore. rewrite Forall_forall in HF.
      specialize (HF s (nth_error_In _ _ Es)). lia.
    + split; [intros _; exact Ht|]. intros _.
      apply Exists_exists in HE as (s & Hs & Hsize).
      apply In_nth_error in Hs as [v Hs]. exists v. split.
      * rewrite <- Hlen. apply nth_error_Some. congruence.
      * apply (Hcount v s Hs), Hsize.
  - intros t Ht v Hvn. apply (fillNeighbors_returns n polygons t Ht), Hvn.
Qed.

Lemma fillNeighbors_capacity_witness :
  Spec.valid_polygons 8 UnitCube.polygons /\
  (N.of_nat (2 * Spec.corners UnitCube.polygons) < Convex.UINT_MOD)%N /\
  ((forall v, v < 8 -> Spec.at_most_neighbors UnitCube.polygons v 254) <->
   exists t, Convex.fillNeighbors 8 UnitCube.polygons = Return t) /\
  ((exists v, v < 8 /\ Spec.more_neighbors_than UnitCube.polygons v 254) <->
   Convex.fillNeighbors 8 UnitCube.polygons = Throw_logic_error) /\
  (forall t, Convex.fillNeighbors 8 UnitCube.polygons = Return t ->
             forall v, v < 8 -> Spec.stores_neighbors UnitCube.polygons t v).
Proof.
  assert (Hv : Spec.valid_polygons 8 UnitCube.polygons).
  { apply (degrees_le_valid 8 UnitCube.polygons 3). vm_compute. reflexivity. }
  assert (Hb : (N.of_nat (2 * Spec.corners UnitCube.polygons) < Convex.UINT_MOD)%N).
  { vm_compute. reflexivity. }
  split; [exact Hv|]. split; [exact Hb|].
  exact (fillNeighbors_capacity 8 UnitCube.polygons Hv Hb).
Defined.

(** C1, as stated, fails: in the bipyramid over a 255-gon (257 vertices,
    510 triangles) every vertex accumulates at most 255 distinct neighbours
    (each apex exactly 255, the others 4), the indices are valid and the
    counter does not wrap, and yet [fillNeighbors] throws. *)
Lemma fillNeighbors_rejects_255_neighbors :
  Spec.valid_polygons 257 (Examples.bipyramid 255) /\
  (N.of_nat (2 * Spec.corners (Examples.bipyramid 255)) < Convex.UINT_MOD)%N /\
  (forall v, v < 257 -> Spec.at_most_neighbors (Examples.bipyramid 255) v 255) /\
  Spec.degrees_le 257 (Examples.bipyramid 255) 254 = false /\
  Convex.fillNeighbors 257 (Examples.bipyramid 255) = Throw_logic_error.
Proof.
  assert (Hd : Spec.degrees_le 257 (Examples.bipyramid 255) 255 = true)
    by (vm_compute; reflexivity).
  split; [apply (degrees_le_valid _ _ _ Hd)|].
  split; [vm_compute; reflexivity|].
  split; [apply (degrees_le_sound _ _ _ Hd)|].
  split; vm_compute; reflexivity.
Qed.

(** One vertex less around the equator and the table is built. *)
Example fillNeighbors_accepts_254_neighbors :
  Spec.degrees_le 256 (Examples.bipyramid 254) 254 = true /\
  (exists t, Convex.fillNeighbors 256 (Examples.bipyramid 254) = Return t).
Proof.
  split; [vm_compute; reflexivity|]. eexists. vm_compute. reflexivity.
Qed.

(** C3: when [fillNeighbors] succeeds the table is symmetric: [u] is
    stored among the neighbours of [v] exactly when [v] is stored among the
    neighbours of [u]. *)
Theorem fillNeighbors_symmetric :
  forall (num_points : nat) (polygons : list Convex.PolygonT)
         (t : Convex.NeighborTable),
    Convex.fillNeighbors num_points polygons = Return t ->
    forall u v, In u (Convex.neighbors_of t v) <-> In v (Convex.neighbors_of t u).
Proof.
  intros n polygons t Ht.
  destruct (fillNeighbors_returns n polygons t Ht) as (Hv & Hlen & Hstore).
  assert (Hhalf : forall u v, In u (Convex.neighbors_of t v) ->
                              In v (Convex.neighbors_of t u)).
  { intros u v Hu.
    assert (Hvn : v < n).
    { destruct (Nat.lt_ge_cases v n) as [H|H]; [exact H|].
      rewrite neighbors_of_outside in Hu by lia. destruct Hu. }
    destruct (Hstore v Hvn) as [(_ & Hin & _) _].
    apply Hin in Hu. pose proof (adjacent_valid n polygons v u Hv Hu) as [_ Hun].
    destruct (Hstore u Hun) as [(_ & Hin' & _) _].
    apply Hin', adjacent_sym, Hu. }
  intros u v. split; apply Hhalf.
Qed.

Lemma fillNeighbors_symmetric_witness :
  exists t, Convex.fillNeighbors 8 UnitCube.polygons = Return t /\
            forall u v, In u (Convex.neighbors_of t v) <->
                        In v (Convex.neighbors_of t u).
Proof.
  eexists. split; [vm_compute; reflexivity|].
  apply (fillNeighbors_symmetric 8 UnitCube.polygons). vm_compute. reflexivity.
Defined.

(** ** Mass properties *)

Section MassProperties.
Import Real Convex Spec.

Lemma for_each_ext {S X} (body body' : S -> X -> option S) (xs : list X) :
  (forall st x, In x xs -> body st x = body' st x) ->
  forall st, for_each body xs st = for_each body' xs st.
Proof.
  induction xs as [|x xs IH]; intros H st; cbn [for_each]; [reflexivity|].
  rewrite (H st x (or_introl eq_refl)).
  destruct (body' st x); [|reflexivity].
  apply IH. intros st' y Hy. apply H. right. exact Hy.
Qed.

Lemma for_each_mapM {S X Y} (g : X -> option Y) (h : S -> Y -> S) (xs : list X) :
  forall st,
    for_each (fun st x => match g x with
                          | None => None
                          | Some y => Some (h st y)
                          end) xs st
    = option_map (fun ys => fold_left h ys st) (mapM g xs).
Proof.
  induction xs as [|x xs IH]; intros st; cbn [for_each mapM]; [reflexivity|].
  destruct (g x) as [y|]; [|reflexivity].
  rewrite IH. destruct (mapM g xs); reflexivity.
Qed.

Lemma mapM_nth {X Y} (g : X -> option Y) (xs : list X) (ys : list Y) (dx : X) (dy : Y) :
  mapM g xs = Some ys ->
  length ys = length xs /\
  forall j, j < length xs -> g (nth j xs dx) = Some (nth j ys dy).
Proof.
  revert ys; induction xs as [|x xs IH]; intros ys; cbn [mapM].
  - intros [= <-]. split; [reflexivity|]. cbn. lia.
  - destruct (g x) as [y|] eqn:Ey; [|discriminate].
    destruct (mapM g xs) as [ys'|]; [|discriminate].
    intros [= <-]. destruct (IH ys' eq_refl) as [Hlen Hnth].
    split; [cbn; lia|]. intros [|j] Hj; cbn; [exact Ey|]. apply Hnth. cbn in Hj. lia.
Qed.

Lemma for_each_total {S X Y} (g : X -> Y) (h : S -> Y -> S) (xs : list X) :
  forall st,
    for_each (fun st x => Some (h st (g x))) xs st
    = Some (fold_left h (map g xs) st).
Proof.
  induction xs as [|x xs IH]; intros st; cbn [for_each map fold_left]; [reflexivity|].
  apply IH.
Qed.

Lemma fold_left_concat_map {S A B} (h : S -> B -> S) (f : A -> list B) (xs : list A) :
  forall st,
    fold_left h (concat (map f xs)) st
    = fold_left (fun st x => fold_left h (f x) st) xs st.
Proof.
  induction xs as [|x xs IH]; intros st; cbn [map concat fold_left]; [reflexivity|].
  rewrite fold_left_app. apply IH.
Qed.

Lemma plane_center_anchor (points : list Vec3f.t) (polygon : PolygonT) :
  plane_center points polygon = option_map anchor (resolve points polygon).
Proof.
  unfold plane_center, resolve, anchor.
  rewrite (for_each_ext _
             (fun c idx => match point points idx with
                           | None => None
                           | Some v => Some (Vec3f.add c v)
                           end)).
  - rewrite for_each_mapM.
    destruct (mapM (point points) polygon) as [vs|] eqn:E; [|reflexivity].
    cbn [option_map].
    destruct (mapM_nth _ _ _ 0 Vec3f.Zero E) as [-> _]. reflexivity.
  - intros c idx _. destruct (point points idx); reflexivity.
Qed.

Lemma edge_resolved (points : list Vec3f.t) (polygon : PolygonT) (vs : list Vec3f.t) (j : nat) :
  resolve points polygon = Some vs -> j < length polygon ->
  edge points polygon j
  = Some (nth j vs Vec3f.Zero, nth ((j + 1) mod length vs) vs Vec3f.Zero).
Proof.
  intros E Hj. destruct (mapM_nth _ _ _ 0 Vec3f.Zero E) as [Hlen Hnth].
  unfold edge. rewrite Hlen.
  rewrite (Hnth j Hj), (Hnth ((j + 1) mod length polygon)); [reflexivity|].
  apply Nat.mod_upper_bound. lia.
Qed.

(** One polygon of [computeVolume] adds the six_vol of its fan. *)
Lemma volume_polygon_fan (points : list Vec3f.t) (vol : FCL_REAL) (polygon : PolygonT) :
  volume_polygon points vol polygon
  = option_map (fun vs => fold_left (fun acc t => (acc + six_vol t)%float) (fan vs) vol)
               (resolve points polygon).
Proof.
  unfold volume_polygon. rewrite plane_center_anchor.
  destruct (resolve points polygon) as [vs|] eqn:E; [|reflexivity].
  cbn [option_map].
  destruct (mapM_nth _ _ _ 0 Vec3f.Zero E) as [Hlen _].
  rewrite (for_each_ext _
             (fun vol j =>
                Some ((fun acc t => (acc + six_vol t)%float) vol
                        ((fun j => (nth j vs Vec3f.Zero,
                                    nth ((j + 1) mod length vs) vs Vec3f.Zero,
                                    anchor vs)) j)))).
  - rewrite (for_each_total
               (fun j => (nth j vs Vec3f.Zero,
                          nth ((j + 1) mod length vs) vs Vec3f.Zero,
                          anchor vs))
               (fun acc t => (acc + six_vol t)%float)).
    unfold fan. rewrite Hlen. reflexivity.
  - intros st j Hj. apply in_seq in Hj.
    rewrite (edge_resolved points polygon vs j E) by lia. reflexivity.
Qed.

(** One polygon of [computeCOM]. *)
Lemma com_polygon_fan (points : list Vec3f.t) (st : Vec3f.t * FCL_REAL) (polygon : PolygonT) :
  com_polygon points st polygon
  = option_map
      (fun vs =>
         fold_left accumulate
                   (fan vs) st)
      (resolve points polygon).
Proof.
  unfold com_polygon. rewrite plane_center_anchor.
  destruct (resolve points polygon) as [vs|] eqn:E; [|reflexivity].
  cbn [option_map].
  destruct (mapM_nth _ _ _ 0 Vec3f.Zero E) as [Hlen _].
  rewrite (for_each_ext _
             (fun st j =>
                Some (accumulate st
                        ((fun j => (nth j vs Vec3f.Zero,
                                    nth ((j + 1) mod length vs) vs Vec3f.Zero,
                                    anchor vs)) j)))).
  - rewrite (for_each_total
               (fun j => (nth j vs Vec3f.Zero,
                          nth ((j + 1) mod length vs) vs Vec3f.Zero,
                          anchor vs))
               accumulate).
    unfold fan. rewrite Hlen. reflexivity.
  - intros [com vol] j Hj. apply in_seq in Hj.
    rewrite (edge_resolved points polygon vs j E) by lia. reflexivity.
Qed.

Lemma fold_left_pair (ts : list triangle) : forall com vol,
  fold_left accumulate
            ts (com, vol)
  = (fold_left (fun acc t =>
                  let '(v1, v2, v3) := t in
                  Vec3f.add acc (Vec3f.scale (Vec3f.add (Vec3f.add v1 v2) v3) (six_vol t)))
               ts com,
     fold_left (fun acc t => (acc + six_vol t)%float) ts vol).
Proof.
  induction ts as [|[[v1 v2] v3] ts IH]; intros com vol; cbn [fold_left]; [reflexivity|].
  apply IH.
Qed.

Lemma computeVolume_fan (points : list Vec3f.t) (polygons : list PolygonT) :
  computeVolume points polygons = fan_volume points polygons.
Proof.
  unfold computeVolume, fan_volume, fans, sum_six_vol.
  rewrite (for_each_ext _
             (fun vol f => match resolve points f with
                           | None => None
                           | Some vs =>
                               Some (fold_left (fun acc t => (acc + six_vol t)%float)
                                               (fan vs) vol)
                           end)).
  - rewrite for_each_mapM.
    destruct (mapM (resolve points) polygons) as [faces|]; [|reflexivity].
    cbn [option_map]. rewrite fold_left_concat_map. reflexivity.
  - intros vol f _. rewrite volume_polygon_fan.
    destruct (resolve points f); reflexivity.
Qed.

Lemma computeCOM_fan (points : list Vec3f.t) (polygons : list PolygonT) :
  computeCOM points polygons = fan_com points polygons.
Proof.
  unfold computeCOM, fan_com, fans, sum_six_vol, sum_weighted.
  rewrite (for_each_ext _
             (fun st f => match resolve points f with
                          | None => None
                          | Some vs =>
                              Some (fold_left accumulate
                                   (fan vs) st)
                          end)).
  - rewrite for_each_mapM.
    destruct (mapM (resolve points) polygons) as [faces|]; [|reflexivity].
    cbn [option_map]. rewrite <- fold_left_concat_map, fold_left_pair. reflexivity.
  - intros st f _. rewrite com_polygon_fan.
    destruct (resolve points f); reflexivity.
Qed.

End MassProperties.

(** ** The unit cube, however it is presented *)

Section CubePresentations.
Import Real Convex Spec UnitCubeSpec.

Lemma state_eqb_eq (s1 s2 : Vec3f.t * FCL_REAL) : state_eqb s1 s2 = true -> s1 = s2.
Proof.
  destruct s1 as [[x1 y1 z1] v1], s2 as [[x2 y2 z2] v2]. unfold state_eqb. cbn.
  rewrite !andb_true_iff, !FloatAxioms.Leibniz.eqb_spec.
  intros [[[-> ->] ->] ->]. reflexivity.
Qed.

Lemma all_bools_complete (n : nat) : forall b, length b = n -> In b (all_bools n).
Proof.
  induction n as [|n IH]; intros [|x b] Hb; cbn in Hb; try discriminate.
  - left. reflexivity.
  - cbn [all_bools]. apply in_flat_map. exists b. split; [apply IH; lia|].
    destruct x; cbn; auto.
Qed.

Lemma transitions_agree_true : transitions_agree = true.
Proof. vm_compute. reflexivity. Qed.

Lemma add_unmarked_face (b : list bool) (i r : nat) :
  length b = 6 -> i < 6 -> r < 4 -> nth i b false = false ->
  add_face (after_faces b) (oriented (i, r)) = after_faces (vector_set b i true).
Proof.
  intros Hb Hi Hr Hnew. pose proof transitions_agree_true as H.
  unfold transitions_agree in H. rewrite forallb_forall in H.
  specialize (H b (all_bools_complete 6 b Hb)). rewrite forallb_forall in H.
  specialize (H i (proj2 (in_seq 6 0 i) (conj (Nat.le_0_l i) Hi))).
  rewrite Hnew in H. cbn [orb] in H. rewrite forallb_forall in H.
  apply state_eqb_eq, H, in_seq. lia.
Qed.

Lemma nth_vector_set {A} (v : list A) (i j : nat) (x d : A) :
  i < length v ->
  nth j (vector_set v i x) d = if (j =? i)%nat then x else nth j v d.
Proof.
  revert i j; induction v as [|a v IH]; intros [|i] [|j]; cbn; intros H;
    try lia; auto.
  apply IH. lia.
Qed.

Lemma marked_spec (picks : list (nat * nat)) : forall b,
  length b = 6 -> (forall p, In p picks -> fst p < 6) ->
  length (marked picks b) = 6 /\
  forall j, nth j (marked picks b) false = true <->
            nth j b false = true \/ In j (map fst picks).
Proof.
  induction picks as [|p picks IH]; intros b Hb Hp; cbn [marked fold_left map In].
  - split; [exact Hb|]. intros j. tauto.
  - fold (marked picks (vector_set b (fst p) true)).
    destruct (IH (vector_set b (fst p) true)) as [Hlen Hnth].
    + rewrite length_vector_set. exact Hb.
    + intros q Hq. apply Hp. right. exact Hq.
    + split; [exact Hlen|]. intros j. rewrite Hnth.
      rewrite nth_vector_set by (rewrite Hb; apply Hp; left; reflexivity).
      destruct (Nat.eqb_spec j (fst p)) as [->|Hne]; intuition congruence.
Qed.

Lemma add_picked_faces (picks : list (nat * nat)) : forall b,
  length b = 6 -> NoDup (map fst picks) ->
  (forall p, In p picks -> fst p < 6 /\ snd p < 4 /\ nth (fst p) b false = false) ->
  fold_left add_face (map oriented picks) (after_faces b)
  = after_faces (marked picks b).
Proof.
  induction picks as [|[i r] picks IH]; intros b Hb Hnd Hp;
    cbn [map fold_left marked fst]; [reflexivity|].
  destruct (Hp (i, r) (or_introl eq_refl)) as (Hi & Hr & Hnew). cbn [fst snd] in *.
  rewrite (add_unmarked_face b i r Hb Hi Hr Hnew).
  inversion Hnd as [|? ? Hni Hnd']; subst.
  apply IH.
  - rewrite length_vector_set. exact Hb.
  - exact Hnd'.
  - intros q Hq. destruct (Hp q (or_intror Hq)) as (Hq1 & Hq2 & Hq3).
    split; [exact Hq1|]. split; [exact Hq2|].
    rewrite nth_vector_set by lia.
    destruct (Nat.eqb_spec (fst q) i) as [E|_]; [|exact Hq3].
    exfalso. apply Hni. rewrite <- E. apply in_map, Hq.
Qed.

Lemma all_marked (b : list bool) :
  length b = 6 -> (forall j, j < 6 -> nth j b false = true) -> b = repeat true 6.
Proof.
  intros Hb H.
  do 7 (destruct b as [|? b]; try discriminate).
  pose proof (H 0) as H0. pose proof (H 1) as H1. pose proof (H 2) as H2.
  pose proof (H 3) as H3. pose proof (H 4) as H4. pose proof (H 5) as H5.
  cbn in *. rewrite H0, H1, H2, H3, H4, H5 by lia. reflexivity.
Qed.

(** The accumulators of [computeCOM] for any presentation of the cube. *)
Lemma cube_accumulators (picks : list (nat * nat)) :
  Permutation (map fst picks) (seq 0 6) ->
  Forall (fun p => snd p < 4) picks ->
  fold_left accumulate (concat (map fan (map oriented picks))) (Vec3f.Zero, 0%float)
  = (Vec3f.Zero, 6%float).
Proof.
  intros Hperm Hrot.
  assert (Hnd : NoDup (map fst picks)).
  { apply (Permutation_NoDup (Permutation_sym Hperm)), seq_NoDup. }
  assert (Hin : forall j, In j (map fst picks) <-> j < 6).
  { intros j. split; intros H.
    - apply (Permutation_in _ Hperm), in_seq in H. lia.
    - apply (Permutation_in _ (Permutation_sym Hperm)), in_seq. lia. }
  rewrite Forall_forall in Hrot.
  rewrite fold_left_concat_map.
  change (Vec3f.Zero, 0%float) with (after_faces (repeat false 6)).
  change (fun (st : Vec3f.t * float) (x : list Vec3f.t) => fold_left accumulate (fan x) st)
    with add_face.
  rewrite add_picked_faces; [|reflexivity|exact Hnd|].
  - destruct (marked_spec picks (repeat false 6) eq_refl) as [Hlen Hnth].
    { intros p Hp. apply Hin, in_map, Hp. }
    rewrite (all_marked _ Hlen); [vm_compute; reflexivity|].
    intros j Hj. apply Hnth. right. apply Hin, Hj.
  - intros p Hp. split; [apply Hin, in_map, Hp|]. split; [apply Hrot, Hp|].
    assert (Hlt : fst p < 6) by (apply Hin, in_map, Hp).
    destruct (fst p) as [|[|[|[|[|[|?]]]]]]; try reflexivity; lia.
Qed.

End CubePresentations.

(** The 24 fan triangles of the cube each have six-times-signed-volume
    0.25. *)
Lemma unit_cube_fan_terms :
  option_map (map Spec.six_vol) (Spec.fans UnitCube.points UnitCube.polygons)
  = Some (repeat 0.25%float 24).
Proof. vm_compute. reflexivity. Qed.

(** C8: for every presentation of the cube with vertices
    (+-0.5, +-0.5, +-0.5) by its six outward quadrilaterals (any numbering of
    the vertices, any order of the faces, any first corner of each face),
    [computeVolume()] is exactly 1.0 and [computeCOM()] is exactly (0, 0, 0)
    in double arithmetic; and for every polytope both functions are the
    centroid-fan formulas: volume = (sum of six_vol) / 6 and centre of mass =
    (sum of (v_j + v_{j+1} + anchor) * six_vol) / (4 * sum of six_vol). *)
Theorem unit_cube_volume_and_com :
  (forall points polygons,
      UnitCubeSpec.presents_unit_cube points polygons ->
      Convex.computeVolume points polygons = Some 1%float /\
      Convex.computeCOM points polygons = Some Vec3f.Zero) /\
  (forall points polygons,
      Convex.computeVolume points polygons = Spec.fan_volume points polygons /\
      Convex.computeCOM points polygons = Spec.fan_com points polygons).
Proof.
  split.
  - intros points polygons (picks & Hperm & Hrot & Hres).
    rewrite computeVolume_fan, computeCOM_fan.
    unfold Spec.fan_volume, Spec.fan_com, Spec.fans. rewrite Hres.
    cbn [option_map].
    pose proof (cube_accumulators picks Hperm Hrot) as H.
    rewrite fold_left_pair in H.
    fold (Spec.sum_weighted (concat (map Spec.fan (map UnitCubeSpec.oriented picks)))) in H.
    fold (Spec.sum_six_vol (concat (map Spec.fan (map UnitCubeSpec.oriented picks)))) in H.
    injection H as Hcom Hvol. rewrite Hcom, Hvol.
    split; vm_compute; reflexivity.
  - intros points polygons. split; [apply computeVolume_fan|apply computeCOM_fan].
Qed.

Lemma unit_cube_volume_and_com_witness :
  (Convex.computeVolume UnitCube.points UnitCube.polygons = Some 1%float /\
   Convex.computeCOM UnitCube.points UnitCube.polygons = Some Vec3f.Zero) /\
  (Convex.computeVolume Examples.renumbered_points Examples.renumbered_polygons
   = Some 1%float /\
   Convex.computeCOM Examples.renumbered_points Examples.renumbered_polygons
   = Some Vec3f.Zero).
Proof.
  split.
  - apply (proj1 unit_cube_volume_and_com UnitCube.points UnitCube.polygons).
    exists [(0, 0); (1, 0); (2, 0); (3, 0); (4, 0); (5, 0)].
    split; [apply Permutation_refl|].
    split; [repeat constructor|vm_compute; reflexivity].
  - apply (proj1 unit_cube_volume_and_com
             Examples.renumbered_points Examples.renumbered_polygons).
    exists [(3, 1); (0, 2); (5, 0); (1, 3); (4, 1); (2, 2)].
    split; [|split; [repeat constructor|vm_compute; reflexivity]].
    apply NoDup_Permutation.
    + repeat constructor; cbn; intuition lia.
    + apply seq_NoDup.
    + intros x. cbn. intuition lia.
Defined.

(* ================================================================== *)
(** * Part III: further properties of the code                       *)
(* ================================================================== *)

(** ** More on doubles *)

Section FloatEquality.
Import Real Spec.

Lemma same_double_sym (a b : FCL_REAL) : same_double a b -> same_double b a.
Proof.
  intros [[-> H]|[H1 H2]]; [left|right]; auto.
Qed.

Lemma same_double_trans (a b c : FCL_REAL) :
  same_double a b -> same_double b c -> same_double a c.
Proof.
  intros [[-> H]|[H1 H2]] [[-> H']|[H1' H2']].
  - left. auto.
  - right. auto.
  - right. auto.
  - right. auto.
Qed.

Lemma Real_eq_sym (a b : FCL_REAL) : Real.eq a b = Real.eq b a.
Proof.
  destruct (Real.eq a b) eqn:E1, (Real.eq b a) eqn:E2; try reflexivity.
  - apply Real_eq_same_double, same_double_sym, Real_eq_same_double in E1. congruence.
  - apply Real_eq_same_double, same_double_sym, Real_eq_same_double in E2. congruence.
Qed.

Lemma Real_eq_trans (a b c : FCL_REAL) :
  Real.eq a b = true -> Real.eq b c = true -> Real.eq a c = true.
Proof.
  rewrite !Real_eq_same_double. apply same_double_trans.
Qed.

Lemma same_vector_sym (a b : Vec3f.t) : same_vector a b -> same_vector b a.
Proof. intros (H1 & H2 & H3). repeat split; apply same_double_sym; assumption. Qed.

Lemma same_vector_trans (a b c : Vec3f.t) :
  same_vector a b -> same_vector b c -> same_vector a c.
Proof.
  intros (H1 & H2 & H3) (H1' & H2' & H3').
  repeat split; eapply same_double_trans; eassumption.
Qed.

Lemma Vec3f_eqb_sym (a b : Vec3f.t) : Vec3f.eqb a b = Vec3f.eqb b a.
Proof.
  unfold Vec3f.eqb.
  rewrite (Real_eq_sym (Vec3f.x a)), (Real_eq_sym (Vec3f.y a)), (Real_eq_sym (Vec3f.z a)).
  reflexivity.
Qed.

Lemma Vec3f_eqb_trans (a b c : Vec3f.t) :
  Vec3f.eqb a b = true -> Vec3f.eqb b c = true -> Vec3f.eqb a c = true.
Proof. rewrite !Vec3f_eqb_same_vector. apply same_vector_trans. Qed.

(** [std::sqrt] never gives a number below zero. *)
Lemma SFsqrt_not_negative (x : spec_float) (s : bool) :
  SFltb (SF64sqrt x) (S754_zero s) = false.
Proof.
  unfold SF64sqrt, SFsqrt, SFltb.
  destruct x as [sx|sx| |sx mx ex]; try (destruct sx); try reflexivity.
  destruct (SFsqrt_core_binary prec emax (Z.pos mx) ex) as [[mz ez] lz].
  unfold binary_round_aux.
  destruct (shr_fexp prec emax mz ez lz) as [mrs' e'].
  destruct (shr_fexp prec emax _ e' loc_Exact) as [mrs'' e''].
  destruct (shr_m mrs''); try reflexivity.
  destruct (e'' <=? emax - prec)%Z; reflexivity.
Qed.

Lemma sqrt_not_negative (x : FCL_REAL) : Real.lt (Real.sqrt x) 0%float = false.
Proof.
  unfold Real.lt, Real.sqrt. rewrite ltb_spec, sqrt_spec.
  change (Prim2SF 0%float) with (S754_zero false). apply SFsqrt_not_negative.
Qed.

(** A double that compares equal to zero is one of the two zeros. *)
Lemma eq_zero_cases (a : FCL_REAL) :
  Real.eq a 0%float = true -> a = 0%float \/ a = (-0)%float.
Proof.
  unfold Real.eq. rewrite eqb_spec. change (Prim2SF 0%float) with (S754_zero false).
  intros H. apply SFeqb_true_iff in H as [[H _]|(s & s' & H & _)].
  - left. apply Prim2SF_inj. exact H.
  - destruct s; [right|left]; apply Prim2SF_inj; rewrite H; reflexivity.
Qed.

(** Dividing by a zero never gives a finite double. *)
Lemma div_by_zero_not_finite (x z : FCL_REAL) :
  Real.eq z 0%float = true -> is_finite (x / z)%float = false.
Proof.
  intros Hz. unfold is_finite, is_nan, is_infinity.
  rewrite !eqb_spec, abs_spec, div_spec.
  change (Prim2SF infinity) with (S754_infinity false).
  apply eq_zero_cases in Hz as [->| ->].
  - change (Prim2SF 0%float) with (S754_zero false).
    destruct (Prim2SF x) as [sx|sx| |sx mx ex]; try destruct sx; reflexivity.
  - change (Prim2SF (-0)%float) with (S754_zero true).
    destruct (Prim2SF x) as [sx|sx| |sx mx ex]; try destruct sx; reflexivity.
Qed.

End FloatEquality.

(** ** Contact::operator< and operator== as relations *)

(** X1: [operator<] on contacts is a strict weak ordering (what [std::sort]
    and [std::set] require): irreflexive, asymmetric, transitive, with a
    transitive incomparability, which holds exactly between contacts with
    the same primitive ids. *)
Theorem Contact_ltb_strict_weak_order :
  forall a b c : Contact.t,
    Contact.ltb a a = false /\
    (Contact.ltb a b = true -> Contact.ltb b a = false) /\
    (Contact.ltb a b = true -> Contact.ltb b c = true -> Contact.ltb a c = true) /\
    ((Contact.ltb a b = false /\ Contact.ltb b a = false) <->
     (Contact.b1 a = Contact.b1 b /\ Contact.b2 a = Contact.b2 b)) /\
    (Contact.ltb a b = false -> Contact.ltb b a = false ->
     Contact.ltb b c = false -> Contact.ltb c b = false ->
     Contact.ltb a c = false /\ Contact.ltb c a = false).
Proof.
  intros a b c. unfold Contact.ltb.
  destruct (Z.eqb_spec (Contact.b1 a) (Contact.b1 a)) as [_|H]; [|congruence].
  destruct (Z.eqb_spec (Contact.b1 a) (Contact.b1 b)),
    (Z.eqb_spec (Contact.b1 b) (Contact.b1 a)),
    (Z.eqb_spec (Contact.b1 b) (Contact.b1 c)),
    (Z.eqb_spec (Contact.b1 c) (Contact.b1 b)),
    (Z.eqb_spec (Contact.b1 a) (Contact.b1 c)),
    (Z.eqb_spec (Contact.b1 c) (Contact.b1 a));
    try congruence;
    rewrite ?Z.ltb_lt, ?Z.ltb_ge; repeat split; intros;
    repeat match goal with
           | H : _ /\ _ |- _ => destruct H
           | H : (_ <? _)%Z = true |- _ => apply Z.ltb_lt in H
           | H : (_ <? _)%Z = false |- _ => apply Z.ltb_ge in H
           | |- (_ <? _)%Z = true => apply Z.ltb_lt
           | |- (_ <? _)%Z = false => apply Z.ltb_ge
           end; try lia.
Qed.

Lemma Contact_ltb_strict_weak_order_witness :
  Contact.ltb (Examples.contact 1 3) (Examples.contact 2 5) = true /\
  Contact.ltb (Examples.contact 2 5) (Examples.contact 1 9) = false.
Proof.
  split.
  - apply (proj1 (proj2 (proj2 (Contact_ltb_strict_weak_order
             (Examples.contact 1 3) (Examples.contact 1 9) (Examples.contact 2 5)))));
      reflexivity.
  - apply (proj1 (proj2 (Contact_ltb_strict_weak_order
             (Examples.contact 1 9) (Examples.contact 2 5) (Examples.contact 1 3))));
      reflexivity.
Defined.

Section ContactRelation.
Import Real Spec.

Lemma Contact_eqb_sym (a b : Contact.t) : Contact.eqb a b = Contact.eqb b a.
Proof.
  unfold Contact.eqb.
  rewrite (N.eqb_sym (Contact.o1 a)), (N.eqb_sym (Contact.o2 a)),
    (Z.eqb_sym (Contact.b1 a)), (Z.eqb_sym (Contact.b2 a)),
    (Vec3f_eqb_sym (Contact.normal a)), (Vec3f_eqb_sym (Contact.pos a)),
    (Real_eq_sym (Contact.penetration_depth a)).
  reflexivity.
Qed.

Lemma Contact_eqb_trans (a b c : Contact.t) :
  Contact.eqb a b = true -> Contact.eqb b c = true -> Contact.eqb a c = true.
Proof.
  unfold Contact.eqb. rewrite !andb_true_iff, !N.eqb_eq, !Z.eqb_eq.
  intros ((((((-> & ->) & ->) & ->) & Hn) & Hp) & Hd)
         ((((((-> & ->) & ->) & ->) & Hn') & Hp') & Hd').
  repeat split; try reflexivity.
  - eapply Vec3f_eqb_trans; eassumption.
  - eapply Vec3f_eqb_trans; eassumption.
  - eapply Real_eq_trans; eassumption.
Qed.

End ContactRelation.

(** X2: [operator==] on contacts is symmetric and transitive, [operator!=]
    is its negation, and a contact that compares equal to some contact
    compares equal to itself (it is not reflexive in general: a NaN in
    normal, pos or the depth makes a contact unequal to itself). *)
Theorem Contact_eqb_partial_equivalence :
  forall a b c : Contact.t,
    Contact.eqb a b = Contact.eqb b a /\
    (Contact.eqb a b = true -> Contact.eqb b c = true -> Contact.eqb a c = true) /\
    (Contact.eqb a b = true -> Contact.eqb a a = true) /\
    Contact.neqb a b = negb (Contact.eqb b a).
Proof.
  intros a b c. split; [apply Contact_eqb_sym|]. split; [apply Contact_eqb_trans|].
  split.
  - intros H. apply (Contact_eqb_trans a b a H). rewrite Contact_eqb_sym. exact H.
  - unfold Contact.neqb. rewrite Contact_eqb_sym. reflexivity.
Qed.

Lemma Contact_eqb_partial_equivalence_witness :
  Contact.eqb (Examples.contact 3 4)
    (Spec.with_nearest_points (Examples.contact 3 4)
       (Vec3f.Constant 1%float, Vec3f.Constant 2%float)) = true /\
  Contact.eqb (Examples.contact 3 4) (Examples.contact 3 4) = true.
Proof.
  split.
  - apply (proj1 (proj2 (Contact_eqb_partial_equivalence
             (Examples.contact 3 4) (Examples.contact 3 4)
             (Spec.with_nearest_points (Examples.contact 3 4)
                (Vec3f.Constant 1%float, Vec3f.Constant 2%float)))));
      vm_compute; reflexivity.
  - apply (proj1 (proj2 (proj2 (Contact_eqb_partial_equivalence
             (Examples.contact 3 4) (Examples.contact 3 4) (Examples.contact 3 4)))));
      vm_compute; reflexivity.
Defined.

(** ** The contact list of a CollisionResult *)

Section ContactList.
Import Real.

Lemma contacts_addContact (r : CollisionResult.t) (c : Contact.t) :
  CollisionResult.contacts (CollisionResult.addContact r c)
  = CollisionResult.contacts r ++ [c].
Proof. reflexivity. Qed.

(** [getContact] reads the list at the clamped index. *)
Lemma getContact_nth_error (r : CollisionResult.t) (i : nat) (c : Contact.t) :
  CollisionResult.getContact r i = Return c <->
  nth_error (CollisionResult.contacts r)
            (Nat.min i (length (CollisionResult.contacts r) - 1)) = Some c.
Proof.
  unfold CollisionResult.getContact.
  destruct (CollisionResult.contacts r) as [|c0 cs] eqn:E.
  - cbn. destruct (Nat.min i 0); split; discriminate.
  - rewrite <- E. assert (Hne : CollisionResult.contacts r <> []) by congruence.
    assert (Hlen : 1 <= length (CollisionResult.contacts r)) by (rewrite E; cbn; lia).
    destruct (Nat.ltb_spec i (length (CollisionResult.contacts r))) as [Hi|Hi].
    + rewrite Nat.min_l by lia.
      rewrite (nth_error_nth_default _ i c0 Hi). split; congruence.
    + rewrite Nat.min_r by lia.
      rewrite (nth_error_last_default _ c0 Hne). split; congruence.
Qed.

End ContactList.

(** X3: [addContact(c)] appends: the number of contacts grows by one, the
    result is a collision, [getContact] of the old count (and of every
    larger index) returns [c], and the contacts stored before are read as
    before; the lower bound is not touched. *)
Theorem addContact_appends :
  forall (r : CollisionResult.t) (c : Contact.t) (i : nat),
    CollisionResult.numContacts (CollisionResult.addContact r c)
    = S (CollisionResult.numContacts r) /\
    CollisionResult.isCollision (CollisionResult.addContact r c) = true /\
    (CollisionResult.numContacts r <= i ->
     CollisionResult.getContact (CollisionResult.addContact r c) i = Return c) /\
    (i < CollisionResult.numContacts r ->
     CollisionResult.getContact (CollisionResult.addContact r c) i
     = CollisionResult.getContact r i) /\
    CollisionResult.distance_lower_bound (CollisionResult.addContact r c)
    = CollisionResult.distance_lower_bound r.
Proof.
  intros r c i. unfold CollisionResult.numContacts, CollisionResult.isCollision.
  rewrite contacts_addContact, length_app. cbn [length].
  split; [lia|]. split; [apply Nat.ltb_lt; lia|]. split; [|split; [|reflexivity]].
  - intros Hi. apply getContact_nth_error.
    rewrite contacts_addContact, length_app. cbn [length].
    rewrite Nat.min_r by lia.
    rewrite nth_error_app2 by lia.
    replace (length (CollisionResult.contacts r) + 1 - 1
             - length (CollisionResult.contacts r)) with 0 by lia.
    reflexivity.
  - intros Hi.
    destruct (nth_error (CollisionResult.contacts r) i) as [x|] eqn:Ex;
      [|apply nth_error_None in Ex; lia].
    transitivity (@Return Contact.t x); [|symmetry]; apply getContact_nth_error.
    + rewrite contacts_addContact, length_app. cbn [length].
      rewrite Nat.min_l by lia. rewrite nth_error_app1 by lia. exact Ex.
    + rewrite Nat.min_l by lia. exact Ex.
Qed.

Lemma addContact_appends_witness :
  CollisionResult.getContact
    (CollisionResult.addContact (Examples.collided [Examples.contact 1 3])
                                (Examples.contact 2 5)) 1
  = Return (Examples.contact 2 5) /\
  CollisionResult.getContact
    (CollisionResult.addContact (Examples.collided [Examples.contact 1 3])
                                (Examples.contact 2 5)) 0
  = CollisionResult.getContact (Examples.collided [Examples.contact 1 3]) 0.
Proof.
  split.
  - apply (proj1 (proj2 (proj2 (addContact_appends
             (Examples.collided [Examples.contact 1 3]) (Examples.contact 2 5) 1)))).
    cbn. lia.
  - apply (proj1 (proj2 (proj2 (proj2 (addContact_appends
             (Examples.collided [Examples.contact 1 3]) (Examples.contact 2 5) 0))))).
    cbn. lia.
Defined.

(** X4: [setContact(i, c)] throws invalid_argument on an empty result;
    otherwise it overwrites the contact that [getContact(i)] reads (contact
    [i], or the last one when [i] is out of range), so that [getContact(i)]
    then returns [c], keeps the number of contacts and the lower bound, and
    leaves every other contact as it was. *)
Theorem setContact_then_getContact :
  forall (r : CollisionResult.t) (i : nat) (c : Contact.t),
    (CollisionResult.numContacts r = 0 ->
     CollisionResult.setContact r i c = Throw_invalid_argument) /\
    (1 <= CollisionResult.numContacts r ->
     exists r',
       CollisionResult.setContact r i c = Return r' /\
       CollisionResult.numContacts r' = CollisionResult.numContacts r /\
       CollisionResult.getContact r' i = Return c /\
       CollisionResult.distance_lower_bound r'
       = CollisionResult.distance_lower_bound r /\
       forall j, j < CollisionResult.numContacts r ->
                 j <> Nat.min i (CollisionResult.numContacts r - 1) ->
                 CollisionResult.getContact r' j = CollisionResult.getContact r j).
Proof.
  intros r i c. unfold CollisionResult.numContacts, CollisionResult.setContact.
  destruct (CollisionResult.contacts r) as [|c0 cs] eqn:E.
  - split; [reflexivity|]. cbn. lia.
  - split; [cbn; discriminate|]. intros _. rewrite <- E.
    set (l := CollisionResult.contacts r) in *.
    assert (Hlen : 1 <= length l) by (rewrite E; cbn; lia).
    set (k := if i <? length l then i else length l - 1).
    assert (Hk : k = Nat.min i (length l - 1)).
    { unfold k. destruct (Nat.ltb_spec i (length l)); lia. }
    assert (Hkl : k < length l) by lia.
    assert (Hnew : length (firstn k l ++ c :: skipn (S k) l) = length l).
    { rewrite length_app, length_firstn. cbn [length]. rewrite length_skipn. lia. }
    eexists. split; [reflexivity|]. cbn [CollisionResult.contacts].
    split; [exact Hnew|]. split; [|split; [reflexivity|]].
    + apply getContact_nth_error. cbn [CollisionResult.contacts].
      rewrite Hnew, <- Hk.
      rewrite nth_error_app2 by (rewrite length_firstn; lia).
      rewrite length_firstn. replace (k - Nat.min k (length l)) with 0 by lia.
      reflexivity.
    + intros j Hj Hjk.
      destruct (nth_error l j) as [x|] eqn:Ex; [|apply nth_error_None in Ex; lia].
      transitivity (@Return Contact.t x); [|symmetry]; apply getContact_nth_error.
      * cbn [CollisionResult.contacts]. rewrite Hnew, Nat.min_l by lia.
        rewrite <- Hk in Hjk.
        destruct (Nat.lt_ge_cases j k) as [Hlt|Hge].
        -- rewrite nth_error_app1 by (rewrite length_firstn; lia).
           rewrite nth_error_firstn. destruct (Nat.ltb_spec j k); [exact Ex|lia].
        -- rewrite nth_error_app2 by (rewrite length_firstn; lia).
           rewrite length_firstn. replace (Nat.min k (length l)) with k by lia.
           destruct (j - k) as [|d] eqn:Ed; [lia|]. cbn [nth_error].
           rewrite nth_error_skipn. replace (S k + d) with j by lia. exact Ex.
      * change (CollisionResult.contacts r) with l.
        rewrite Nat.min_l by lia. exact Ex.
Qed.

Lemma setContact_then_getContact_witness :
  CollisionResult.setContact (Examples.collided []) 0 (Examples.contact 2 5)
  = Throw_invalid_argument /\
  exists r',
    CollisionResult.setContact
      (Examples.collided [Examples.contact 1 3; Examples.contact 1 9]) 7
      (Examples.contact 2 5) = Return r' /\
    CollisionResult.getContact r' 7 = Return (Examples.contact 2 5) /\
    CollisionResult.getContact r' 1 = Return (Examples.contact 2 5) /\
    CollisionResult.getContact r' 0 = Return (Examples.contact 1 3).
Proof.
  split.
  - apply (proj1 (setContact_then_getContact
                    (Examples.collided []) 0 (Examples.contact 2 5))).
    reflexivity.
  - destruct (proj2 (setContact_then_getContact
                       (Examples.collided [Examples.contact 1 3; Examples.contact 1 9])
                       7 (Examples.contact 2 5)))
      as (r' & Hset & _ & Hget & _ & _); [cbn; lia|].
    exists r'. split; [exact Hset|]. split; [exact Hget|].
    injection Hset as <-. split; vm_compute; reflexivity.
Defined.

(** ** operator== of the results *)

Section ResultEquality.
Import Real.

Lemma contacts_eqb_sym (a : list Contact.t) : forall b,
  CollisionResult.contacts_eqb a b = CollisionResult.contacts_eqb b a.
Proof.
  induction a as [|x a IH]; intros [|y b]; cbn; try reflexivity.
  rewrite Contact_eqb_sym, IH. reflexivity.
Qed.

Lemma contacts_eqb_trans (a : list Contact.t) : forall b c,
  CollisionResult.contacts_eqb a b = true ->
  CollisionResult.contacts_eqb b c = true ->
  CollisionResult.contacts_eqb a c = true.
Proof.
  induction a as [|x a IH]; intros [|y b] [|z c]; cbn; try discriminate; auto.
  rewrite !andb_true_iff. intros [H1 H2] [H1' H2']. split.
  - eapply Contact_eqb_trans; eassumption.
  - eapply IH; eassumption.
Qed.

Lemma contacts_eqb_length (a : list Contact.t) : forall b,
  CollisionResult.contacts_eqb a b = true -> length a = length b.
Proof.
  induction a as [|x a IH]; intros [|y b]; cbn; try discriminate; auto.
  rewrite andb_true_iff. intros [_ H]. f_equal. apply IH, H.
Qed.

End ResultEquality.

(** X5: [operator==] on CollisionResults is symmetric and transitive, two
    equal results hold the same number of contacts, and after [clear()]
    every result compares equal to a freshly constructed one, whatever it
    held before. *)
Theorem CollisionResult_eqb_relation :
  forall (a b c : CollisionResult.t) (np : Vec3f.t * Vec3f.t),
    CollisionResult.eqb a b = CollisionResult.eqb b a /\
    (CollisionResult.eqb a b = true -> CollisionResult.eqb b c = true ->
     CollisionResult.eqb a c = true) /\
    (CollisionResult.eqb a b = true ->
     CollisionResult.numContacts a = CollisionResult.numContacts b) /\
    CollisionResult.eqb (CollisionResult.clear a) (CollisionResult.default np) = true /\
    CollisionResult.eqb (CollisionResult.clear a) (CollisionResult.clear b) = true.
Proof.
  intros a b c np. unfold CollisionResult.eqb.
  split; [rewrite contacts_eqb_sym, Real_eq_sym; reflexivity|].
  split; [|split; [|split; vm_compute; reflexivity]].
  - rewrite !andb_true_iff. intros [H1 H2] [H1' H2']. split.
    + eapply contacts_eqb_trans; eassumption.
    + eapply Real_eq_trans; eassumption.
  - rewrite andb_true_iff. intros [H _]. apply contacts_eqb_length, H.
Qed.

Lemma CollisionResult_eqb_relation_witness :
  CollisionResult.eqb
    (Examples.collided [Examples.contact 1 3])
    (CollisionResult.addContact
       (CollisionResult.default (Vec3f.Constant 1%float, Vec3f.Zero))
       (Examples.contact 1 3)) = true /\
  CollisionResult.numContacts (Examples.collided [Examples.contact 1 3])
  = CollisionResult.numContacts
      (CollisionResult.addContact
         (CollisionResult.default (Vec3f.Constant 1%float, Vec3f.Zero))
         (Examples.contact 1 3)).
Proof.
  assert (H : CollisionResult.eqb
    (Examples.collided [Examples.contact 1 3])
    (CollisionResult.addContact
       (CollisionResult.default (Vec3f.Constant 1%float, Vec3f.Zero))
       (Examples.contact 1 3)) = true) by (vm_compute; reflexivity).
  split; [exact H|].
  exact (proj1 (proj2 (proj2 (CollisionResult_eqb_relation
           (Examples.collided [Examples.contact 1 3])
           (CollisionResult.addContact
              (CollisionResult.default (Vec3f.Constant 1%float, Vec3f.Zero))
              (Examples.contact 1 3))
           (Examples.collided []) (Vec3f.Zero, Vec3f.Zero)))) H).
Defined.

(** X6: [operator==] on DistanceResults is the conjunction of its eight
    comparisons (min_distance, the two nearest points, normal, o1, o2, b1,
    b2): the two NULL tests with early return never change the outcome.  It
    is symmetric, and a freshly constructed or cleared result, whose nearest
    points and normal are NaN, does not compare equal to anything, itself
    included. *)
Theorem DistanceResult_eqb_fields :
  forall (D : Type) (r other : DistanceResult.t D) (u : D) (m : Real.FCL_REAL),
    DistanceResult.eqb r other
    = (Real.eq (DistanceResult.min_distance r) (DistanceResult.min_distance other) &&
       Vec3f.eqb (fst (DistanceResult.nearest_points r))
                 (fst (DistanceResult.nearest_points other)) &&
       Vec3f.eqb (snd (DistanceResult.nearest_points r))
                 (snd (DistanceResult.nearest_points other)) &&
       Vec3f.eqb (DistanceResult.normal r) (DistanceResult.normal other) &&
       (DistanceResult.o1 r =? DistanceResult.o1 other)%N &&
       (DistanceResult.o2 r =? DistanceResult.o2 other)%N &&
       (DistanceResult.b1 r =? DistanceResult.b1 other)%Z &&
       (DistanceResult.b2 r =? DistanceResult.b2 other)%Z) /\
    DistanceResult.eqb r other = DistanceResult.eqb other r /\
    DistanceResult.eqb (DistanceResult.clear r) other = false /\
    DistanceResult.eqb other (DistanceResult.clear r) = false /\
    DistanceResult.eqb (DistanceResult.construct u m) other = false.
Proof.
  intros D r other u m.
  assert (Hfields : forall a b : DistanceResult.t D,
    DistanceResult.eqb a b
    = (Real.eq (DistanceResult.min_distance a) (DistanceResult.min_distance b) &&
       Vec3f.eqb (fst (DistanceResult.nearest_points a))
                 (fst (DistanceResult.nearest_points b)) &&
       Vec3f.eqb (snd (DistanceResult.nearest_points a))
                 (snd (DistanceResult.nearest_points b)) &&
       Vec3f.eqb (DistanceResult.normal a) (DistanceResult.normal b) &&
       (DistanceResult.o1 a =? DistanceResult.o1 b)%N &&
       (DistanceResult.o2 a =? DistanceResult.o2 b)%N &&
       (DistanceResult.b1 a =? DistanceResult.b1 b)%Z &&
       (DistanceResult.b2 a =? DistanceResult.b2 b)%Z)).
  { intros a b. unfold DistanceResult.eqb, NULL.
    destruct (N.eqb_spec (DistanceResult.o1 a) (DistanceResult.o1 b)) as [E1|E1];
      destruct (N.eqb_spec (DistanceResult.o2 a) (DistanceResult.o2 b)) as [E2|E2];
      try rewrite E1; try rewrite E2;
      repeat match goal with
             | |- context [(?x =? 0)%N] => destruct (N.eqb_spec x 0)
             end;
      cbn [xorb negb]; rewrite ?andb_true_r, ?andb_false_r; cbn [andb];
      try reflexivity; try congruence.
    all: repeat match goal with
                | |- context [Real.eq ?x ?y] => destruct (Real.eq x y)
                | |- context [Vec3f.eqb ?x ?y] => destruct (Vec3f.eqb x y)
                end; reflexivity. }
  split; [apply Hfields|]. split; [|split; [|split]].
  - rewrite !Hfields.
    rewrite (Real_eq_sym (DistanceResult.min_distance r)),
      (Vec3f_eqb_sym (fst (DistanceResult.nearest_points r))),
      (Vec3f_eqb_sym (snd (DistanceResult.nearest_points r))),
      (Vec3f_eqb_sym (DistanceResult.normal r)),
      (N.eqb_sym (DistanceResult.o1 r)), (N.eqb_sym (DistanceResult.o2 r)),
      (Z.eqb_sym (DistanceResult.b1 r)), (Z.eqb_sym (DistanceResult.b2 r)).
    reflexivity.
  - rewrite Hfields. cbn [DistanceResult.clear DistanceResult.normal].
    assert (Hn : Vec3f.eqb DistanceResult.nan3 (DistanceResult.normal other) = false).
    { unfold Vec3f.eqb. cbn. unfold Real.eq.
      rewrite eqb_spec. reflexivity. }
    rewrite Hn, !andb_false_r. reflexivity.
  - rewrite Hfields. cbn [DistanceResult.clear DistanceResult.normal].
    assert (Hn : Vec3f.eqb (DistanceResult.normal other) DistanceResult.nan3 = false).
    { rewrite Vec3f_eqb_sym. unfold Vec3f.eqb. cbn. unfold Real.eq.
      rewrite eqb_spec. reflexivity. }
    rewrite Hn, !andb_false_r. reflexivity.
  - rewrite Hfields. cbn [DistanceResult.construct DistanceResult.normal].
    assert (Hn : Vec3f.eqb DistanceResult.nan3 (DistanceResult.normal other) = false).
    { unfold Vec3f.eqb. cbn. unfold Real.eq.
      rewrite eqb_spec. reflexivity. }
    rewrite Hn, !andb_false_r. reflexivity.
Qed.

(** ** The other overloads of DistanceResult::update *)

(** X7: the five-argument [update] never writes nearest_points or normal
    (so the Python accessors getNearestPoint1/2 return what they returned
    before the call); it writes min_distance, o1, o2, b1, b2 exactly as the
    eight-argument [update] does, when the distance is strictly smaller, and
    nothing otherwise. *)
Theorem update_ids_keeps_nearest_points :
  forall (D : Type) (r : DistanceResult.t D) (a : DistanceResult.args),
    DistanceResultWrapper.getNearestPoint1
      (DistanceResult.update_ids r (DistanceResult.distance a)
         (DistanceResult.o1_ a) (DistanceResult.o2_ a)
         (DistanceResult.b1_ a) (DistanceResult.b2_ a))
    = DistanceResultWrapper.getNearestPoint1 r /\
    DistanceResultWrapper.getNearestPoint2
      (DistanceResult.update_ids r (DistanceResult.distance a)
         (DistanceResult.o1_ a) (DistanceResult.o2_ a)
         (DistanceResult.b1_ a) (DistanceResult.b2_ a))
    = DistanceResultWrapper.getNearestPoint2 r /\
    DistanceResult.normal
      (DistanceResult.update_ids r (DistanceResult.distance a)
         (DistanceResult.o1_ a) (DistanceResult.o2_ a)
         (DistanceResult.b1_ a) (DistanceResult.b2_ a))
    = DistanceResult.normal r /\
    DistanceResult.update_ids r (DistanceResult.distance a)
      (DistanceResult.o1_ a) (DistanceResult.o2_ a)
      (DistanceResult.b1_ a) (DistanceResult.b2_ a)
    = DistanceResult.make
        (DistanceResult.base r)
        (DistanceResult.min_distance (DistanceResult.update r a))
        (DistanceResult.nearest_points r) (DistanceResult.derivatives r)
        (DistanceResult.normal r)
        (DistanceResult.o1 (DistanceResult.update r a))
        (DistanceResult.o2 (DistanceResult.update r a))
        (DistanceResult.b1 (DistanceResult.update r a))
        (DistanceResult.b2 (DistanceResult.update r a)).
Proof.
  intros D r a.
  unfold DistanceResult.update_ids, DistanceResult.update,
    DistanceResultWrapper.getNearestPoint1, DistanceResultWrapper.getNearestPoint2.
  destruct (Real.gt (DistanceResult.min_distance r) (DistanceResult.distance a));
    repeat split; destruct r; reflexivity.
Qed.

Section MergeResults.
Import Real Spec.
Context {D : Type}.

Lemma update_result_update (r other : DistanceResult.t D) :
  DistanceResult.update_result r other
  = DistanceResult.update r (args_of_result other).
Proof. reflexivity. Qed.

Lemma fold_update_result (others : list (DistanceResult.t D)) : forall r,
  fold_left DistanceResult.update_result others r
  = run_updates r (map args_of_result others).
Proof.
  induction others as [|o others IH]; intros r; cbn; [reflexivity|].
  rewrite IH. reflexivity.
Qed.

End MergeResults.

(** X8: [update(other_result)] merges: it is the eight-argument [update]
    with the fields of [other_result]; merging a result into itself, or
    merging the same result a second time, changes nothing; the merged
    min_distance is never above the previous one; and merging a list of
    results leaves the fields of the first result of the list with a minimal
    min_distance, if that is below the initial one. *)
Theorem update_result_merges :
  forall (D : Type) (r other : DistanceResult.t D)
         (others : list (DistanceResult.t D)),
    DistanceResult.update_result r other
    = DistanceResult.update r (args_of_result other) /\
    DistanceResult.update_result r r = r /\
    DistanceResult.update_result (DistanceResult.update_result r other) other
    = DistanceResult.update_result r other /\
    Real.lt (DistanceResult.min_distance r)
            (DistanceResult.min_distance (DistanceResult.update_result r other))
    = false /\
    Spec.winner r (map args_of_result others)
                (fold_left DistanceResult.update_result others r).
Proof.
  intros D r other others.
  split; [reflexivity|]. split; [|split; [|split]].
  - unfold DistanceResult.update_result, Real.gt. rewrite ltb_irrefl. reflexivity.
  - unfold DistanceResult.update_result, Real.gt.
    destruct (DistanceResult.min_distance other <? DistanceResult.min_distance r)%float
      eqn:E; cbn [DistanceResult.min_distance].
    + rewrite ltb_irrefl. reflexivity.
    + rewrite E. reflexivity.
  - unfold DistanceResult.update_result, Real.gt, Real.lt.
    destruct (DistanceResult.min_distance other <? DistanceResult.min_distance r)%float
      eqn:E; cbn [DistanceResult.min_distance].
    + apply ltb_asym, E.
    + apply ltb_irrefl.
  - rewrite fold_update_result. apply run_updates_winner.
Qed.

(** ** internal::updateDistanceLowerBoundFromLeaf and FromBV *)

Section Leaves.
Import Real Spec.




End Leaves.



(** After leaves at the distances 2, 1, 3 the witness points are those of
    the second call. *)
Example run_leaves_second_call_wins :
  CollisionResult.nearest_points
    (run_leaves (Examples.collided [])
                [(2%float, Vec3f.Zero, Vec3f.Constant 2%float);
                 (1%float, Vec3f.Zero, Vec3f.Constant 1%float);
                 (3%float, Vec3f.Zero, Vec3f.Constant 3%float)])
  = (Vec3f.Zero, Vec3f.Constant 1%float).
Proof. vm_compute. reflexivity. Qed.

(** X10: [updateDistanceLowerBoundFromBV] changes nothing when the bound
    is already <= 0; otherwise it is [updateDistanceLowerBound] with the
    square root of its argument.  So the bound is kept or strictly lowered,
    a bound that is not negative never becomes negative, and only
    distance_lower_bound is written. *)
Theorem updateDistanceLowerBoundFromBV_keeps_sign :
  forall (res : CollisionResult.t) (sqrDistLowerBound : Real.FCL_REAL),
    (Real.le (CollisionResult.distance_lower_bound res) 0%float = true ->
     internal.updateDistanceLowerBoundFromBV res sqrDistLowerBound = res) /\
    (Real.le (CollisionResult.distance_lower_bound res) 0%float = false ->
     internal.updateDistanceLowerBoundFromBV res sqrDistLowerBound
     = CollisionResult.updateDistanceLowerBound res (Real.sqrt sqrDistLowerBound)) /\
    (CollisionResult.distance_lower_bound
       (internal.updateDistanceLowerBoundFromBV res sqrDistLowerBound)
     = CollisionResult.distance_lower_bound res \/
     Real.lt (CollisionResult.distance_lower_bound
                (internal.updateDistanceLowerBoundFromBV res sqrDistLowerBound))
             (CollisionResult.distance_lower_bound res) = true) /\
    (Real.lt (CollisionResult.distance_lower_bound res) 0%float = false ->
     Real.lt (CollisionResult.distance_lower_bound
                (internal.updateDistanceLowerBoundFromBV res sqrDistLowerBound))
             0%float = false) /\
    CollisionResult.contacts (internal.updateDistanceLowerBoundFromBV res sqrDistLowerBound)
    = CollisionResult.contacts res /\
    CollisionResult.nearest_points
      (internal.updateDistanceLowerBoundFromBV res sqrDistLowerBound)
    = CollisionResult.nearest_points res /\
    CollisionResult.base (internal.updateDistanceLowerBoundFromBV res sqrDistLowerBound)
    = CollisionResult.base res.
Proof.
  intros res x.
  unfold internal.updateDistanceLowerBoundFromBV, CollisionResult.updateDistanceLowerBound.
  destruct (Real.le (CollisionResult.distance_lower_bound res) 0%float) eqn:Ele.
  - repeat split; auto; discriminate.
  - destruct (Real.lt (Real.sqrt x) (CollisionResult.distance_lower_bound res)) eqn:Elt;
      cbn [CollisionResult.distance_lower_bound CollisionResult.contacts
           CollisionResult.nearest_points CollisionResult.base];
      repeat split; auto; try discriminate.
    intros _. apply sqrt_not_negative.
Qed.

Lemma updateDistanceLowerBoundFromBV_keeps_sign_witness :
  internal.updateDistanceLowerBoundFromBV
    (CollisionResult.updateDistanceLowerBound
       (CollisionResult.default (Vec3f.Zero, Vec3f.Zero)) (-1)%float) 4%float
  = CollisionResult.updateDistanceLowerBound
      (CollisionResult.default (Vec3f.Zero, Vec3f.Zero)) (-1)%float /\
  Real.lt (CollisionResult.distance_lower_bound
             (internal.updateDistanceLowerBoundFromBV
                (CollisionResult.default (Vec3f.Zero, Vec3f.Zero)) 4%float))
          0%float = false.
Proof.
  split.
  - apply (proj1 (updateDistanceLowerBoundFromBV_keeps_sign
             (CollisionResult.updateDistanceLowerBound
                (CollisionResult.default (Vec3f.Zero, Vec3f.Zero)) (-1)%float) 4%float)).
    vm_compute. reflexivity.
  - apply (proj1 (proj2 (proj2 (proj2 (updateDistanceLowerBoundFromBV_keeps_sign
             (CollisionResult.default (Vec3f.Zero, Vec3f.Zero)) 4%float))))).
    vm_compute. reflexivity.
Defined.

(** ** CollisionRequest flags *)

Section Flags.
Import CollisionRequest.



End Flags.


(** ** QueryRequest: updateGuess again, and operator== *)

(** X12: feeding results back with [updateGuess]: the last result wins
    (the request after [updateGuess(r1)] then [updateGuess(r2)] is the one
    after [updateGuess(r2)] alone), so feeding the same result twice changes
    nothing more; and the call never changes whether the request selects the
    cached guess. *)
Theorem updateGuess_last_result_wins :
  forall (req : QueryRequest.t) (r1 r2 : QueryResult.t),
    QueryRequest.updateGuess (QueryRequest.updateGuess req r1) r2
    = QueryRequest.updateGuess req r2 /\
    QueryRequest.updateGuess (QueryRequest.updateGuess req r1) r1
    = QueryRequest.updateGuess req r1 /\
    Spec.selects_cached_guess (QueryRequest.updateGuess req r1)
    = Spec.selects_cached_guess req.
Proof.
  intros [g e v cc ct tol it cg cs et th] r1 r2.
  unfold QueryRequest.updateGuess, Spec.selects_cached_guess.
  destruct g, e; repeat split.
Qed.

Section RequestEquality.
Import Real.





End RequestEquality.



(** ** More on the table of fillNeighbors *)

Section TableLayout.
Import Convex Spec.

Lemma flatten_returns_fits sets c : forall p tbl buf t,
  flatten sets c p tbl buf = Return t ->
  sets = [] \/ (N.of_nat (p + total_size sets) <= c)%N.
Proof.
  induction sets as [|s sets IH]; intros p tbl buf t; cbn [flatten]; [auto|].
  destruct (UCHAR_MAX <=? StdSet.size s); [discriminate|].
  destruct (N.ltb_spec c (N.of_nat (p + StdSet.size s))) as [Hlt|Hge]; [discriminate|].
  intros H. right. apply IH in H as [->|H].
  - unfold total_size, StdSet.size in *. cbn [map list_sum fold_right] in *.
    rewrite Nat.add_0_r. exact Hge.
  - unfold total_size, StdSet.size in *. cbn [map list_sum fold_right] in *.
    unfold list_sum in H. rewrite Nat.add_assoc. exact H.
Qed.

Lemma total_size_concat (sets : list StdSet.t) :
  total_size sets = length (concat sets).
Proof.
  unfold total_size, StdSet.size.
  induction sets as [|s sets IH]; cbn [map list_sum fold_right concat]; [reflexivity|].
  rewrite length_app. unfold list_sum in IH. rewrite IH. reflexivity.
Qed.

Lemma entries_offset sets : forall p v e,
  nth_error (entries sets p) v = Some e ->
  n_ e = p + length (concat (firstn v sets)).
Proof.
  induction sets as [|s sets IH]; intros p [|v] e; cbn [entries nth_error firstn concat];
    try discriminate.
  - intros [= <-]. cbn. lia.
  - intros H. rewrite (IH _ _ _ H), length_app. unfold StdSet.size. lia.
Qed.

(** The sets behind a returned table. *)
Lemma fillNeighbors_sets n polygons t :
  fillNeighbors n polygons = Return t ->
  exists nn c,
    build_sets n polygons = Some (nn, c) /\
    t = mkTable (entries nn 0) (concat nn) /\
    length nn = n /\
    c = N.of_nat (length (concat nn)) /\
    (forall v s, nth_error nn v = Some s ->
                 neighbors_of t v = s /\ StronglySorted lt s /\
                 forall u, In u s <-> adjacent polygons v u).
Proof.
  unfold fillNeighbors.
  destruct (build_sets n polygons) as [[nn c]|] eqn:E; [|discriminate].
  intros Hf. exists nn, c. split; [reflexivity|].
  pose proof (flatten_returns_fits _ _ _ _ _ _ Hf) as Hfit.
  apply flatten_returns in Hf as [-> HF]. cbn [app] in *.
  destruct (build_sets_spec n polygons) as [Hfwd Hbwd].
  destruct (Hfwd (Hbwd _ E)) as (st & E' & Hlen & Hsets & Htot & Hc).
  rewrite E in E'. injection E' as <-. cbn [fst snd] in *.
  split; [reflexivity|]. split; [exact Hlen|]. split.
  - rewrite <- total_size_concat. rewrite Hc.
    destruct Hfit as [->|Hfit]; [reflexivity|].
    cbn [Nat.add] in Hfit. rewrite Hc in Hfit.
    pose proof (N.Div0.mod_le (N.of_nat (total_size nn)) UINT_MOD) as Hle. lia.
  - intros v s Hs.
    destruct (entries_lookup nn 0 [] [] v s eq_refl HF Hs) as (e & He & Hcount & Hcells).
    rewrite app_nil_r in Hcells. cbn [app] in Hcells.
    split; [|apply (Hsets v s Hs)].
    unfold neighbors_of. cbn [neighbors nneighbors_]. rewrite He. exact Hcells.
Qed.

Lemma map_nth_seq {A} (l : list A) (d : A) :
  map (fun v => nth v l d) (seq 0 (length l)) = l.
Proof.
  induction l as [|a l IH]; cbn [length seq map]; [reflexivity|].
  cbn [nth]. f_equal. rewrite <- seq_shift, map_map. exact IH.
Qed.

End TableLayout.

(** X14: the layout of a returned table.  There is one entry per vertex;
    the packed buffer is the neighbour lists of the vertices 0, 1, ... one
    after the other, so the entry of [v] points just behind the cells of
    the vertices before it; the cells of a vertex are in strictly ascending
    order; and the buffer holds exactly as many cells as were counted, which
    is the assertion that ends [fillNeighbors]. *)
Theorem fillNeighbors_layout :
  forall (num_points : nat) (polygons : list Convex.PolygonT)
         (t : Convex.NeighborTable),
    Convex.fillNeighbors num_points polygons = Return t ->
    length (Convex.neighbors t) = num_points /\
    Convex.nneighbors_ t
    = concat (map (Convex.neighbors_of t) (seq 0 num_points)) /\
    (forall v e, nth_error (Convex.neighbors t) v = Some e ->
                 Convex.n_ e
                 = length (concat (map (Convex.neighbors_of t) (seq 0 v)))) /\
    (forall v, StronglySorted lt (Convex.neighbors_of t v)) /\
    (exists nneighbors c_nneighbors,
        Convex.build_sets num_points polygons = Some (nneighbors, c_nneighbors) /\
        N.of_nat (length (Convex.nneighbors_ t)) = c_nneighbors).
Proof.
  intros n polygons t Ht.
  destruct (fillNeighbors_sets n polygons t Ht) as (nn & c & E & -> & Hlen & Hc & Hsets).
  assert (Hof : forall v, v < n ->
            Convex.neighbors_of (Convex.mkTable (Spec.entries nn 0) (concat nn)) v
            = nth v nn []).
  { intros v Hv. destruct (nth_error nn v) as [s|] eqn:Es;
      [|apply nth_error_None in Es; lia].
    rewrite (proj1 (Hsets v s Es)). symmetry. apply nth_error_nth, Es. }
  assert (Hmap : forall k, k <= n ->
            map (Convex.neighbors_of (Convex.mkTable (Spec.entries nn 0) (concat nn)))
                (seq 0 k) = firstn k nn).
  { intros k Hk. rewrite <- (map_nth_seq (firstn k nn) []).
    rewrite length_firstn, Nat.min_l by lia.
    apply map_ext_in. intros v Hv. apply in_seq in Hv.
    rewrite Hof by lia. symmetry.
    rewrite nth_firstn. destruct (Nat.ltb_spec v k); [reflexivity|lia]. }
  cbn [Convex.neighbors Convex.nneighbors_].
  split; [rewrite length_entries; exact Hlen|]. split; [|split; [|split]].
  - rewrite Hmap by lia. rewrite <- Hlen, firstn_all. reflexivity.
  - intros v e He.
    assert (Hv : v < n).
    { rewrite <- Hlen, <- (length_entries nn 0). apply nth_error_Some. congruence. }
    rewrite (entries_offset _ _ _ _ He), Hmap by lia. reflexivity.
  - intros v. destruct (Nat.lt_ge_cases v n) as [Hv|Hv].
    + destruct (nth_error nn v) as [s|] eqn:Es; [|apply nth_error_None in Es; lia].
      destruct (Hsets v s Es) as (-> & Hs & _). exact Hs.
    + rewrite neighbors_of_outside; [constructor|].
      cbn [Convex.neighbors]. rewrite length_entries. lia.
  - exists nn, c. split; [exact E|]. symmetry. exact Hc.
Qed.

Lemma fillNeighbors_layout_witness :
  exists t, Convex.fillNeighbors 8 UnitCube.polygons = Return t /\
            Convex.nneighbors_ t
            = concat (map (Convex.neighbors_of t) (seq 0 8)).
Proof.
  eexists. split; [vm_compute; reflexivity|].
  apply (fillNeighbors_layout 8 UnitCube.polygons). vm_compute. reflexivity.
Defined.

Section FaceOrder.
Import Convex Spec UnitCubeSpec.

Lemma sorted_lt_ext (s : list nat) : forall s',
  StronglySorted lt s -> StronglySorted lt s' ->
  (forall u, In u s <-> In u s') -> s = s'.
Proof.
  induction s as [|a s IH]; intros [|b s'] Hs Hs' H.
  - reflexivity.
  - exfalso. apply (proj2 (H b)). left; reflexivity.
  - exfalso. apply (proj1 (H a)). left; reflexivity.
  - apply StronglySorted_inv in Hs as [Hs Ha].
    apply StronglySorted_inv in Hs' as [Hs' Hb].
    rewrite Forall_forall in Ha, Hb.
    assert (a = b).
    { destruct (proj1 (H a) (or_introl eq_refl)) as [E|Hin]; [auto|].
      destruct (proj2 (H b) (or_introl eq_refl)) as [E|Hin']; [auto|].
      specialize (Ha _ Hin'). specialize (Hb _ Hin). lia. }
    subst b. f_equal. apply IH; auto.
    intros u. split; intros Hu.
    + destruct (proj1 (H u) (or_intror Hu)) as [<-|Hin]; [|exact Hin].
      specialize (Ha _ Hu). lia.
    + destruct (proj2 (H u) (or_intror Hu)) as [<-|Hin]; [|exact Hin].
      specialize (Hb _ Hu). lia.
Qed.

(** The sets of the first loop depend on the adjacency only. *)
Lemma build_sets_ext n polygons polygons' :
  valid_polygons n polygons -> valid_polygons n polygons' ->
  (forall v u, adjacent polygons v u <-> adjacent polygons' v u) ->
  build_sets n polygons = build_sets n polygons'.
Proof.
  intros Hv Hv' Hadj.
  destruct (proj1 (build_sets_spec n polygons) Hv)
    as ([nn c] & -> & Hlen & Hsets & _ & Hc).
  destruct (proj1 (build_sets_spec n polygons') Hv')
    as ([nn' c'] & -> & Hlen' & Hsets' & _ & Hc').
  cbn [fst snd] in *.
  assert (E : nn = nn').
  { apply nth_error_ext. intros v.
    destruct (nth_error nn v) as [s|] eqn:Es; destruct (nth_error nn' v) as [s'|] eqn:Es'.
    - f_equal. destruct (Hsets v s Es) as [Hs Hin].
      destruct (Hsets' v s' Es') as [Hs' Hin'].
      apply sorted_lt_ext; auto. intros u. rewrite Hin, Hin'. apply Hadj.
    - apply nth_error_None in Es'.
      assert (v < length nn) by (apply nth_error_Some; congruence). lia.
    - apply nth_error_None in Es.
      assert (v < length nn') by (apply nth_error_Some; congruence). lia.
    - reflexivity. }
  subst nn'. congruence.
Qed.

Lemma fillNeighbors_ext n polygons polygons' :
  (valid_polygons n polygons <-> valid_polygons n polygons') ->
  (forall v u, adjacent polygons v u <-> adjacent polygons' v u) ->
  fillNeighbors n polygons = fillNeighbors n polygons'.
Proof.
  intros Hv Hadj. unfold fillNeighbors.
  destruct (build_sets n polygons) as [st|] eqn:E.
  - pose proof (proj2 (build_sets_spec n polygons) _ E) as H.
    rewrite <- (build_sets_ext n polygons polygons'), E; tauto.
  - destruct (build_sets n polygons') as [st'|] eqn:E'; [|reflexivity].
    pose proof (proj2 (build_sets_spec n polygons') _ E') as H.
    rewrite (build_sets_ext n polygons polygons') in E by tauto. congruence.
Qed.

Lemma length_rotate {A} (r : nat) (l : list A) : length (rotate r l) = length l.
Proof.
  unfold rotate. rewrite length_app, length_skipn, length_firstn. lia.
Qed.

Lemma In_rotate {A} (r : nat) (l : list A) (x : A) : In x (rotate r l) <-> In x l.
Proof.
  unfold rotate. rewrite <- (firstn_skipn r l) at 3. rewrite !in_app_iff. tauto.
Qed.

Lemma nth_rotate (r : nat) (f : list nat) (j : nat) :
  r <= length f -> j < length f ->
  nth j (rotate r f) 0 = nth ((j + r) mod length f) f 0.
Proof.
  intros Hr Hj. unfold rotate.
  destruct (Nat.lt_ge_cases j (length f - r)) as [H|H].
  - rewrite app_nth1 by (rewrite length_skipn; lia).
    rewrite nth_skipn, Nat.mod_small by lia. f_equal. lia.
  - rewrite app_nth2 by (rewrite length_skipn; lia).
    rewrite length_skipn, nth_firstn.
    destruct (Nat.ltb_spec (j - (length f - r)) r); [|lia].
    replace (j + r) with ((j - (length f - r)) + 1 * length f) by lia.
    rewrite Nat.Div0.mod_add, Nat.mod_small by lia. reflexivity.
Qed.

(** Reading [f'] through a renumbering of the positions that keeps or swaps
    predecessor and successor gives the neighbours of [f]. *)
Lemma face_neighbor_reindex (f f' : PolygonT) (sigma : nat -> nat) (v u : nat) :
  length f' = length f ->
  (forall j, j < length f ->
     sigma j < length f /\ nth j f' 0 = nth (sigma j) f 0 /\
     ((sigma (prev_pos (length f) j) = prev_pos (length f) (sigma j) /\
       sigma (next_pos (length f) j) = next_pos (length f) (sigma j)) \/
      (sigma (prev_pos (length f) j) = next_pos (length f) (sigma j) /\
       sigma (next_pos (length f) j) = prev_pos (length f) (sigma j)))) ->
  face_neighbor f' v u -> face_neighbor f v u.
Proof.
  intros Hlen Hs (j & Hj & Hv & Hu). rewrite Hlen in *.
  destruct (Hs j Hj) as (Hsj & Hnth & Hpn).
  destruct (prev_next_pos (length f) j Hj) as (_ & _ & Hp & Hn).
  rewrite <- prev_pos_mod, <- next_pos_mod in Hu by exact Hj.
  rewrite (proj1 (proj2 (Hs _ Hp))), (proj1 (proj2 (Hs _ Hn))) in Hu.
  exists (sigma j). split; [exact Hsj|]. split; [congruence|].
  rewrite <- prev_pos_mod, <- next_pos_mod by exact Hsj.
  destruct Hpn as [[E1 E2]|[E1 E2]]; rewrite E1, E2 in Hu; tauto.
Qed.

Lemma shift_pos (n r j : nat) :
  j < n ->
  (prev_pos n j + r) mod n = prev_pos n ((j + r) mod n) /\
  (next_pos n j + r) mod n = next_pos n ((j + r) mod n).
Proof.
  intros Hj.
  assert (Hm : (j + r) mod n < n) by (apply Nat.mod_upper_bound; lia).
  rewrite (prev_pos_mod n ((j + r) mod n)), (next_pos_mod n ((j + r) mod n)) by exact Hm.
  rewrite (prev_pos_mod n j), (next_pos_mod n j) by exact Hj.
  split.
  - rewrite Nat.Div0.add_mod_idemp_l.
    replace ((j + r) mod n + n - 1) with ((j + r) mod n + (n - 1)) by lia.
    rewrite Nat.Div0.add_mod_idemp_l. f_equal. lia.
  - rewrite !Nat.Div0.add_mod_idemp_l. f_equal. lia.
Qed.

Lemma face_neighbor_rotate (r : nat) (f : PolygonT) (v u : nat) :
  face_neighbor (rotate r f) v u <-> face_neighbor f v u.
Proof.
  destruct (Nat.le_gt_cases r (length f)) as [Hr|Hr].
  2:{ unfold rotate. rewrite skipn_all2, firstn_all2 by lia. reflexivity. }
  split.
  - apply (face_neighbor_reindex f (rotate r f) (fun j => (j + r) mod length f)).
    + apply length_rotate.
    + intros j Hj. split; [apply Nat.mod_upper_bound; lia|].
      split; [apply nth_rotate; assumption|]. left. apply shift_pos, Hj.
  - apply (face_neighbor_reindex (rotate r f) f
             (fun j => (j + (length f - r)) mod length f)).
    + symmetry. apply length_rotate.
    + rewrite length_rotate. intros j Hj.
      assert (Hm : (j + (length f - r)) mod length f < length f)
        by (apply Nat.mod_upper_bound; lia).
      split; [exact Hm|]. split; [|left; apply shift_pos, Hj].
      rewrite nth_rotate by assumption.
      rewrite Nat.Div0.add_mod_idemp_l.
      replace (j + (length f - r) + r) with (j + 1 * length f) by lia.
      rewrite Nat.Div0.mod_add, Nat.mod_small by lia. reflexivity.
Qed.

Lemma face_neighbor_rev_1 (f : PolygonT) (v u : nat) :
  face_neighbor (rev f) v u -> face_neighbor f v u.
Proof.
  apply (face_neighbor_reindex f (rev f) (fun j => length f - 1 - j)).
  - apply length_rev.
  - intros j Hj. split; [lia|]. split.
    + rewrite rev_nth by exact Hj. f_equal. lia.
    + right. unfold prev_pos, next_pos.
      repeat match goal with
             | |- context [?a =? ?b] => destruct (Nat.eqb_spec a b)
             end; lia.
Qed.

Lemma face_neighbor_rev (f : PolygonT) (v u : nat) :
  face_neighbor (rev f) v u <-> face_neighbor f v u.
Proof.
  split; [apply face_neighbor_rev_1|].
  intros H. apply face_neighbor_rev_1. rewrite rev_involutive. exact H.
Qed.

Lemma same_cycle_facts (f f' : PolygonT) :
  same_cycle f f' ->
  (forall p, In p f' <-> In p f) /\
  (forall v u, face_neighbor f' v u <-> face_neighbor f v u).
Proof.
  intros [r [->| ->]]; split; intros.
  - apply In_rotate.
  - apply face_neighbor_rotate.
  - rewrite <- in_rev. apply In_rotate.
  - rewrite face_neighbor_rev. apply face_neighbor_rotate.
Qed.

Lemma same_faces_facts n polygons polygons' :
  same_faces polygons polygons' ->
  (valid_polygons n polygons <-> valid_polygons n polygons') /\
  (forall v u, adjacent polygons v u <-> adjacent polygons' v u).
Proof.
  intros [H1 H2]. split; [split|split].
  - intros Hv f' Hf' p Hp. destruct (H2 f' Hf') as (f & Hf & Hc).
    apply (Hv f Hf). apply (same_cycle_facts f f' Hc), Hp.
  - intros Hv f Hf p Hp. destruct (H1 f Hf) as (f' & Hf' & Hc).
    apply (Hv f' Hf'). apply (same_cycle_facts f f' Hc), Hp.
  - intros (f & Hf & Hn). destruct (H1 f Hf) as (f' & Hf' & Hc).
    exists f'. split; [exact Hf'|]. apply (same_cycle_facts f f' Hc), Hn.
  - intros (f' & Hf' & Hn). destruct (H2 f' Hf') as (f & Hf & Hc).
    exists f. split; [exact Hf|]. apply (same_cycle_facts f f' Hc), Hn.
Qed.

Lemma Permutation_same_faces (polygons polygons' : list PolygonT) :
  Permutation polygons polygons' -> same_faces polygons polygons'.
Proof.
  intros HP. split; intros f Hf; exists f; (split; [|exists 0; left; unfold rotate;
    cbn [skipn firstn]; symmetry; apply app_nil_r]).
  - apply (Permutation_in _ HP), Hf.
  - apply (Permutation_in _ (Permutation_sym HP)), Hf.
Qed.

End FaceOrder.

(** X15: [fillNeighbors] depends on the faces only as unoriented cycles.
    Listing the polygons in another order, repeating one, starting a polygon
    from another of its corners or walking it the other way round changes
    nothing: the outcome (the table, the exception or the out-of-range
    access) is the same. *)
Theorem fillNeighbors_same_faces :
  forall (num_points : nat) (polygons polygons' : list Convex.PolygonT),
    same_faces polygons polygons' ->
    Convex.fillNeighbors num_points polygons
    = Convex.fillNeighbors num_points polygons'.
Proof.
  intros n polygons polygons' H.
  destruct (same_faces_facts n polygons polygons' H) as [Hv Hadj].
  apply fillNeighbors_ext; assumption.
Qed.

(** The cube with its faces listed backwards, each one reversed. *)
Lemma fillNeighbors_same_faces_witness :
  same_faces UnitCube.polygons (rev (map (@rev nat) UnitCube.polygons)) /\
  Convex.fillNeighbors 8 UnitCube.polygons
  = Convex.fillNeighbors 8 (rev (map (@rev nat) UnitCube.polygons)).
Proof.
  assert (H : same_faces UnitCube.polygons (rev (map (@rev nat) UnitCube.polygons))).
  { split.
    - intros f Hf. exists (rev f). split.
      + apply -> in_rev. apply in_map, Hf.
      + exists 0. right. unfold UnitCubeSpec.rotate. cbn [skipn firstn].
        rewrite app_nil_r. reflexivity.
    - intros f' Hf'. apply in_rev, in_map_iff in Hf' as (f & <- & Hf).
      exists f. split; [exact Hf|].
      exists 0. right. unfold UnitCubeSpec.rotate. cbn [skipn firstn].
      rewrite app_nil_r. reflexivity. }
  split; [exact H|].
  apply (fillNeighbors_same_faces 8 _ _ H).
Defined.

Section Degrees.
Import Convex Spec.

(** Whatever the vertex, the cells read from a returned table are its
    registered neighbours. *)
Lemma neighbors_of_adjacent n polygons t :
  fillNeighbors n polygons = Return t ->
  forall v u, In u (neighbors_of t v) <-> adjacent polygons v u.
Proof.
  intros Ht v u.
  destruct (fillNeighbors_returns n polygons t Ht) as (Hv & Hlen & Hstore).
  destruct (Nat.lt_ge_cases v n) as [H|H].
  - apply (Hstore v H).
  - rewrite neighbors_of_outside by lia. split; [intros []|].
    intros Ha. apply (adjacent_valid n polygons v u Hv) in Ha. lia.
Qed.

Lemma In_face_neighbors (f : PolygonT) (v : nat) :
  In v f ->
  exists j, j < length f /\ nth j f 0 = v /\
            face_neighbor f v (nth (prev_pos (length f) j) f 0) /\
            face_neighbor f v (nth (next_pos (length f) j) f 0).
Proof.
  intros Hin. destruct (In_nth f v 0 Hin) as (j & Hj & Hnth).
  exists j. split; [exact Hj|]. split; [exact Hnth|].
  split; exists j; (split; [exact Hj|]); (split; [exact Hnth|]);
    rewrite <- prev_pos_mod, <- next_pos_mod by exact Hj; auto.
Qed.

Lemma pos_distinct (n j : nat) :
  j < n -> (2 <= n -> prev_pos n j <> j /\ next_pos n j <> j) /\
           (3 <= n -> prev_pos n j <> next_pos n j).
Proof.
  intros Hj. unfold prev_pos, next_pos.
  destruct (Nat.eqb_spec j 0); destruct (Nat.eqb_spec j (n - 1)); lia.
Qed.

End Degrees.

(** X16: what the table says about single vertices.  A vertex has an empty
    neighbour list exactly when it is on no polygon.  When every polygon
    lists at least three indices, all different, no vertex is its own
    neighbour and every vertex of a polygon has at least two neighbours. *)
Theorem fillNeighbors_degrees :
  forall (num_points : nat) (polygons : list Convex.PolygonT)
         (t : Convex.NeighborTable),
    Convex.fillNeighbors num_points polygons = Return t ->
    (forall v, Convex.neighbors_of t v = [] <->
               forall f, In f polygons -> ~ In v f) /\
    ((forall f, In f polygons -> NoDup f /\ 3 <= length f) ->
     forall v, ~ In v (Convex.neighbors_of t v) /\
               ((exists f, In f polygons /\ In v f) ->
                2 <= length (Convex.neighbors_of t v))).
Proof.
  intros n polygons t Ht.
  pose proof (neighbors_of_adjacent n polygons t Ht) as Hadj.
  split.
  - intros v. split.
    + intros E f Hf Hin.
      destruct (In_face_neighbors f v Hin) as (j & _ & _ & _ & Hn).
      assert (H : In (nth (Convex.next_pos (length f) j) f 0) (Convex.neighbors_of t v)).
      { apply Hadj. exists f. auto. }
      rewrite E in H. destruct H.
    + intros Hno. destruct (Convex.neighbors_of t v) as [|u l] eqn:E; [reflexivity|].
      assert (H : Spec.adjacent polygons v u) by (apply Hadj; rewrite E; left; reflexivity).
      destruct H as (f & Hf & j & Hj & Hnth & _).
      exfalso. apply (Hno f Hf). rewrite <- Hnth. apply nth_In, Hj.
  - intros Hproper v. split.
    + intros Hin. apply Hadj in Hin. destruct Hin as (f & Hf & j & Hj & Hnth & Hu).
      destruct (Hproper f Hf) as [Hnd Hlen].
      rewrite <- prev_pos_mod, <- next_pos_mod in Hu by exact Hj.
      destruct (prev_next_pos (length f) j Hj) as (_ & _ & Hp & Hn).
      destruct (pos_distinct (length f) j Hj) as [Hd _].
      destruct Hd as [Hd1 Hd2]; [lia|].
      rewrite NoDup_nth in Hnd.
      destruct Hu as [Hu|Hu]; rewrite <- Hnth in Hu;
        apply Hnd in Hu; auto.
    + intros (f & Hf & Hin).
      destruct (Hproper f Hf) as [Hnd Hlen].
      destruct (In_face_neighbors f v Hin) as (j & Hj & _ & Hp & Hn).
      destruct (prev_next_pos (length f) j Hj) as (_ & _ & Hpl & Hnl).
      destruct (pos_distinct (length f) j Hj) as [_ Hd]. specialize (Hd Hlen).
      set (u1 := nth (Convex.prev_pos (length f) j) f 0) in *.
      set (u2 := nth (Convex.next_pos (length f) j) f 0) in *.
      assert (Hne : u1 <> u2).
      { intros E. apply Hd. rewrite NoDup_nth in Hnd. apply (Hnd _ _ Hpl Hnl E). }
      change 2 with (length [u1; u2]).
      apply NoDup_incl_length.
      * constructor; [intros [H|[]]; auto|]. constructor; [intros []|constructor].
      * intros u [<-|[<-|[]]]; apply Hadj; exists f; auto.
Qed.

Lemma fillNeighbors_degrees_witness :
  exists t, Convex.fillNeighbors 8 UnitCube.polygons = Return t /\
            forall v, Convex.neighbors_of t v = [] <->
                      forall f, In f UnitCube.polygons -> ~ In v f.
Proof.
  eexists. split; [vm_compute; reflexivity|].
  apply (fillNeighbors_degrees 8 UnitCube.polygons). vm_compute. reflexivity.
Defined.

(** X17: an index outside the points is the only way [fillNeighbors] leaves
    its buffers.  A run that stays inside them had valid indices only; and
    with fewer than 2^31 corners, so that the counter of cells cannot wrap,
    valid indices are enough. *)
Theorem fillNeighbors_stays_in_bounds :
  forall (num_points : nat) (polygons : list Convex.PolygonT),
    (Convex.fillNeighbors num_points polygons <> Undefined_behaviour ->
     Spec.valid_polygons num_points polygons) /\
    ((N.of_nat (2 * Spec.corners polygons) < Convex.UINT_MOD)%N ->
     Spec.valid_polygons num_points polygons ->
     Convex.fillNeighbors num_points polygons <> Undefined_behaviour).
Proof.
  intros n polygons. split.
  - unfold Convex.fillNeighbors.
    destruct (Convex.build_sets n polygons) as [st|] eqn:E; [|congruence].
    intros _. apply (proj2 (build_sets_spec n polygons) _ E).
  - intros Hbound Hv.
    destruct (fillNeighbors_decided n polygons Hv Hbound)
      as (nn & c & _ & [[_ [t Ht]]|[_ Ht]]); rewrite Ht; discriminate.
Qed.

Lemma fillNeighbors_stays_in_bounds_witness :
  (N.of_nat (2 * Spec.corners UnitCube.polygons) < Convex.UINT_MOD)%N /\
  Spec.valid_polygons 8 UnitCube.polygons /\
  Convex.fillNeighbors 8 UnitCube.polygons <> Undefined_behaviour.
Proof.
  assert (Hb : (N.of_nat (2 * Spec.corners UnitCube.polygons) < Convex.UINT_MOD)%N)
    by (vm_compute; reflexivity).
  assert (Hv : Spec.valid_polygons 8 UnitCube.polygons).
  { apply (proj1 (fillNeighbors_stays_in_bounds 8 UnitCube.polygons)).
    vm_compute. discriminate. }
  split; [exact Hb|]. split; [exact Hv|].
  apply (proj2 (fillNeighbors_stays_in_bounds 8 UnitCube.polygons) Hb Hv).
Defined.

Section Defined.
Import Convex Spec.

Lemma mapM_defined {X Y} (g : X -> option Y) (xs : list X) :
  (exists ys, mapM g xs = Some ys) <-> (forall x, In x xs -> exists y, g x = Some y).
Proof.
  induction xs as [|x xs IH]; cbn [mapM In].
  - split; [intros _ x []|]. intros _. eexists. reflexivity.
  - split.
    + intros [ys H]. destruct (g x) as [y|] eqn:Ex; [|discriminate].
      destruct (mapM g xs) as [ys'|] eqn:Em; [|discriminate].
      intros x' [<-|Hin]; [eauto|]. apply (proj1 IH); eauto.
    + intros H. destruct (H x (or_introl eq_refl)) as [y ->].
      destruct (proj2 IH) as [ys ->]; [intros; apply H; auto|]. eauto.
Qed.

Lemma fans_defined (points : list Vec3f.t) (polygons : list PolygonT) :
  (exists ts, fans points polygons = Some ts) <->
  valid_polygons (length points) polygons.
Proof.
  unfold fans, valid_polygons.
  assert (H : (exists ts, option_map (fun faces => concat (map fan faces))
                            (mapM (resolve points) polygons) = Some ts) <->
              (exists fs, mapM (resolve points) polygons = Some fs)).
  { destruct (mapM (resolve points) polygons); cbn [option_map].
    - split; intros _; eauto.
    - split; intros [? ?]; discriminate. }
  rewrite H, mapM_defined. unfold resolve.
  split.
  - intros Hall f Hf p Hp. destruct (Hall f Hf) as [vs Hvs].
    destruct (proj1 (mapM_defined _ _) (ex_intro _ vs Hvs) p Hp) as [y Hy].
    unfold point in Hy. apply nth_error_Some. congruence.
  - intros Hall f Hf. apply mapM_defined. intros p Hp. unfold point.
    specialize (Hall f Hf p Hp). apply nth_error_Some in Hall.
    destruct (nth_error points p); [eauto|congruence].
Qed.

End Defined.

(** X18: [computeVolume] and [computeCOM] read the points at the indices of
    the polygons and nowhere else: each of them returns a value exactly when
    every index of every polygon is below the number of points. *)
Theorem mass_properties_defined :
  forall (points : list Vec3f.t) (polygons : list Convex.PolygonT),
    ((exists vol, Convex.computeVolume points polygons = Some vol) <->
     Spec.valid_polygons (length points) polygons) /\
    ((exists com, Convex.computeCOM points polygons = Some com) <->
     Spec.valid_polygons (length points) polygons).
Proof.
  intros points polygons.
  rewrite computeVolume_fan, computeCOM_fan, <- fans_defined.
  unfold Spec.fan_volume, Spec.fan_com.
  destruct (Spec.fans points polygons) as [ts|]; cbn [option_map].
  - split; split; intros _; eauto.
  - split; split; intros [? ?]; discriminate.
Qed.

(** X19: [computeCOM] divides by four times the accumulated volume without
    looking at it.  When the six-fold volumes add up to (plus or minus)
    zero, as for a polytope without polygons or a flat one, no coordinate of
    the returned centre of mass is a finite number. *)
Theorem computeCOM_zero_volume :
  forall (points : list Vec3f.t) (polygons : list Convex.PolygonT)
         (com : Vec3f.t) (vol : Real.FCL_REAL),
    Convex.for_each (Convex.com_polygon points) polygons (Vec3f.Zero, 0%float)
    = Some (com, vol) ->
    Real.eq vol 0%float = true ->
    exists c, Convex.computeCOM points polygons = Some c /\
              is_finite (Vec3f.x c) = false /\
              is_finite (Vec3f.y c) = false /\
              is_finite (Vec3f.z c) = false.
Proof.
  intros points polygons com vol E Hz.
  unfold Convex.computeCOM. rewrite E. eexists. split; [reflexivity|].
  assert (Hd : Real.eq (vol * Convex.to_real 4)%float 0%float = true).
  { destruct (eq_zero_cases vol Hz) as [->| ->]; vm_compute; reflexivity. }
  destruct com as [cx cy cz]. cbn.
  repeat split; apply div_by_zero_not_finite, Hd.
Qed.

(** The square 0-1-3-2 of the cube listed once from each side. *)
Lemma computeCOM_zero_volume_witness :
  exists c, Convex.computeCOM UnitCube.points [[0; 1; 3; 2]; [2; 3; 1; 0]] = Some c /\
            is_finite (Vec3f.x c) = false /\
            is_finite (Vec3f.y c) = false /\
            is_finite (Vec3f.z c) = false.
Proof.
  apply (computeCOM_zero_volume UnitCube.points [[0; 1; 3; 2]; [2; 3; 1; 0]]
           Vec3f.Zero 0%float);
    vm_compute; reflexivity.
Defined.
